(** * jiebago/analyse: the TF-IDF tag extracter

    A shallow embedding of [analyse/tag_extracker.go] and the properties of
    its two extractors, [ExtractTags] and [CNExtractTags].

    Conventions of the embedding:
    - a Go [string] is a sequence of bytes: Rocq's [string] (a list of
      8-bit [ascii]); [<] on Go strings is byte-wise lexicographic, which
      is [String.ltb];
    - a Go [float64] is an IEEE-754 binary64: Rocq's primitive [float];
    - a Go [int] is a 64-bit two's complement integer: a [Z] with the
      wrap-around written out where the code does arithmetic on it;
    - a Go [map[string]float64] is a [gmap string float]; ranging over it
      visits the entries in an unspecified order, here [map_to_list];
    - the channel returned by the segmenter's [Cut] is the finite list of
      the tokens it delivers before it is closed;
    - the extractor's three fields are pointers that are nil until the
      corresponding [Load...] call; the extractors are specified for a
      loaded extractor, the precondition the package documents. *)

From Stdlib Require Import ZArith Ascii String Floats.
From stdpp Require Import gmap strings list fin_maps sorting.

Set Warnings "-clear-no-such-hyp".

Local Open Scope Z_scope.

(** ** The Go runtime: UTF-8, white space, machine integers *)

Module Go.

Definition rune : Type := Z.

Definition RuneError : rune := 0xFFFD.
Definition RuneSelf : Z := 0x80.
Definition MaxLatin1 : rune := 0xFF.

Definition byte_val (c : ascii) : Z := Z.of_N (N_of_ascii c).

(** [len(s)] *)
Definition len (s : string) : nat := String.length s.

(** The table [first] of package [utf8] together with [acceptRanges]:
    for a leading byte of a multi-byte encoding, the size of the
    encoding and the range accepted for its second byte; [None] for an
    ASCII byte and for a byte that starts no encoding. *)
Definition first (s0 : Z) : option (nat * Z * Z) :=
  if s0 <? 0xC2 then None
  else if s0 <=? 0xDF then Some (2%nat, 0x80, 0xBF)
  else if s0 =? 0xE0 then Some (3%nat, 0xA0, 0xBF)
  else if s0 <=? 0xEC then Some (3%nat, 0x80, 0xBF)
  else if s0 =? 0xED then Some (3%nat, 0x80, 0x9F)
  else if s0 <=? 0xEF then Some (3%nat, 0x80, 0xBF)
  else if s0 =? 0xF0 then Some (4%nat, 0x90, 0xBF)
  else if s0 <=? 0xF3 then Some (4%nat, 0x80, 0xBF)
  else if s0 =? 0xF4 then Some (4%nat, 0x80, 0x8F)
  else None.

(** A continuation byte lies in [locb, hicb]. *)
Definition is_cont (b : Z) : bool := (0x80 <=? b) && (b <=? 0xBF).

(** [utf8.DecodeRuneInString]: the first rune of [s] and its width in
    bytes; an invalid or short encoding is [RuneError] of width 1. *)
Definition DecodeRuneInString (s : string) : rune * nat :=
  match s with
  | EmptyString => (RuneError, 0%nat)
  | String c0 r1 =>
    let s0 := byte_val c0 in
    match first s0 with
    | None => (if s0 <? RuneSelf then s0 else RuneError, 1%nat)
    | Some (sz, lo, hi) =>
      if (len s <? sz)%nat then (RuneError, 1%nat) else
      match r1 with
      | EmptyString => (RuneError, 1%nat)
      | String c1 r2 =>
        let s1 := byte_val c1 in
        if (s1 <? lo) || (hi <? s1) then (RuneError, 1%nat) else
        if (sz <=? 2)%nat then
          (Z.lor (Z.shiftl (Z.land s0 0x1F) 6) (Z.land s1 0x3F), 2%nat)
        else
        match r2 with
        | EmptyString => (RuneError, 1%nat)
        | String c2 r3 =>
          let s2 := byte_val c2 in
          if negb (is_cont s2) then (RuneError, 1%nat) else
          if (sz <=? 3)%nat then
            (Z.lor (Z.shiftl (Z.land s0 0x0F) 12)
               (Z.lor (Z.shiftl (Z.land s1 0x3F) 6) (Z.land s2 0x3F)),
             3%nat)
          else
          match r3 with
          | EmptyString => (RuneError, 1%nat)
          | String c3 _ =>
            let s3 := byte_val c3 in
            if negb (is_cont s3) then (RuneError, 1%nat) else
            (Z.lor (Z.shiftl (Z.land s0 0x07) 18)
               (Z.lor (Z.shiftl (Z.land s1 0x3F) 12)
                  (Z.lor (Z.shiftl (Z.land s2 0x3F) 6) (Z.land s3 0x3F))),
             4%nat)
          end
        end
      end
    end
  end.

(** [for _, r := range s]: the runes of [s] in order, each with its
    width. The loop decodes at the current offset and advances by the
    width of what it decoded. *)
Fixpoint range_string (s : string) : list (rune * nat) :=
  match s with
  | EmptyString => []
  | String _ r1 =>
    let d := DecodeRuneInString s in
    d :: match d.2, r1 with
         | 2%nat, String _ r2 => range_string r2
         | 3%nat, String _ (String _ r3) => range_string r3
         | 4%nat, String _ (String _ (String _ r4)) => range_string r4
         | _, _ => range_string r1
         end
  end.

(** [utf8.RuneCountInString]: erroneous and short encodings count as
    single runes of width 1. *)
Definition RuneCountInString (s : string) : nat := length (range_string s).

(** [unicode.IsSpace]: the Latin-1 spaces, and the table [White_Space]
    beyond Latin-1. *)
Definition IsSpace (r : rune) : bool :=
  if r <=? MaxLatin1 then
    (r =? 0x09) || (r =? 0x0A) || (r =? 0x0B) || (r =? 0x0C) || (r =? 0x0D)
    || (r =? 0x20) || (r =? 0x85) || (r =? 0xA0)
  else
    (r =? 0x1680) || ((0x2000 <=? r) && (r <=? 0x200A))
    || (r =? 0x2028) || (r =? 0x2029) || (r =? 0x202F)
    || (r =? 0x205F) || (r =? 0x3000).

(** The number of bytes taken by the leading white-space runes. *)
Fixpoint space_prefix (rs : list (rune * nat)) : nat :=
  match rs with
  | (r, sz) :: rs' => if IsSpace r then (sz + space_prefix rs')%nat else 0%nat
  | [] => 0%nat
  end.

(** [strings.TrimSpace]: the slice [s[start:stop]] of [s] without its
    leading and trailing white space, as defined by Unicode. *)
Definition TrimSpace (s : string) : string :=
  let rs := range_string s in
  let start := space_prefix rs in
  let stop := (len s - space_prefix (rev rs))%nat in
  substring start (stop - start) s.

(** [unicode.IsNumber]: category N. For a Latin-1 rune the answer comes
    from the [properties] table: the ten digits, the superscripts one,
    two and three, and the fractions one quarter, one half and three
    quarters. Beyond Latin-1 the range table [unicode.Number] decides;
    that table is data of the Go distribution and enters as [Number]. *)
Definition IsNumber (Number : rune → bool) (r : rune) : bool :=
  if r <=? MaxLatin1 then
    ((0x30 <=? r) && (r <=? 0x39)) || (r =? 0xB2) || (r =? 0xB3)
    || (r =? 0xB9) || (r =? 0xBC) || (r =? 0xBD) || (r =? 0xBE)
  else Number r.

(** A Go [int]: 64 bits, two's complement, wrapping silently. *)
Definition int_wrap (z : Z) : Z := (z + 2 ^ 63) mod 2 ^ 64 - 2 ^ 63.

(** The string made of the given bytes. *)
Definition bytes (l : list Z) : string :=
  foldr (λ b s, String (ascii_of_N (Z.to_N b)) s) EmptyString l.

End Go.

(** ** Collaborators of the extractor

    The segmenter, the IDF table and the stop-word set are declared in
    other files of the repository; the extractor only calls them. *)

(** The segmenter ([jiebago.Segmenter]). [Cut sentence hmm] is the
    sequence of tokens delivered on the channel that [seg.Cut] returns. *)
Record Segmenter : Type := { Cut : string → bool → list string }.

(** Modelled from the spec: the IDF table (type [Idf], with [Frequency]
    and [median]), which is declared outside this file. It maps a token to
    its IDF value and carries the median used for tokens it does not
    hold. *)
Record Idf : Type := { table : gmap string float; median : float }.

(** Modelled from the spec: [Idf.Frequency], the stored value and
    [found = true] for a key of the table, [found = false] otherwise. *)
Definition Frequency (i : Idf) (key : string) : option float := table i !! key.

(** Modelled from the spec: [NewIdf], the table that was never loaded;
    [Frequency] finds nothing in it and its median is zero. *)
Definition NewIdf : Idf := {| table := ∅; median := 0%float |}.

(** Modelled from the spec: the stop-word set (type [StopWord]), declared
    outside this file: a set of tokens to exclude from scoring. *)
Record StopWord : Type := { stopWordMap : gset string }.

(** Modelled from the spec: [StopWord.IsStopWord], true for a token of the
    backing set and false otherwise, also when the set is empty. *)
Definition IsStopWord (s : StopWord) (word : string) : bool :=
  bool_decide (word ∈ stopWordMap s).

(** Modelled from the spec: [NewStopWord], the stop-word set in its
    empty, unloaded state, for which [IsStopWord] is false throughout. *)
Definition NewStopWord : StopWord := {| stopWordMap := ∅ |}.

(** The outcome of a load operation: [None] is Go's [nil] error. *)
Definition error : Type := option string.

(** ** Segments and their order *)

(** [Segment] represents a word with weight. *)
Record Segment : Type := { text : string; weight : float }.

Definition Text (s : Segment) : string := text s.
Definition Weight (s : Segment) : float := weight s.

Abbreviation Segments := (list Segment).

Definition Len (ss : Segments) : nat := length ss.

(** The comparison [Less] makes between two elements of a slice: by
    weight, and by text when the weights are equal ([==] on float64). *)
Definition Segment_less (a b : Segment) : bool :=
  if (weight a =? weight b)%float then String.ltb (text a) (text b)
  else (weight a <? weight b)%float.

(** [ss.Less(i, j)]; indexing out of range panics ([None]). *)
Definition Less (ss : Segments) (i j : nat) : option bool :=
  a ← ss !! i; b ← ss !! j; Some (Segment_less a b).

(** [ss.Swap(i, j)]. *)
Definition Swap (ss : Segments) (i j : nat) : option Segments :=
  a ← ss !! i; b ← ss !! j; Some (<[i:=b]> (<[j:=a]> ss)).

(** Package [sort]. [sort.Sort] orders the data ascending as determined
    by [Less] and is not stable. It is modelled by an insertion sort on
    the elements; [Sort_unique] below shows that for the order used here
    every sorting procedure has the same result. *)
Module sort.
Section Sort.
Context {A : Type} (less : A → A → bool).

Fixpoint insert (x : A) (l : list A) : list A :=
  match l with
  | [] => [x]
  | y :: l' => if less x y then x :: l else y :: insert x l'
  end.

Definition Sort (data : list A) : list A := foldr insert [] data.

(** [sort.Reverse]: the interface whose [Less(i, j)] is the
    underlying [Less(j, i)]. *)
Definition Reverse (a b : A) : bool := less b a.

(** What holds between an element and its right neighbour in sorted
    data: the right one is not less than the left one. *)
Definition not_before (a b : A) : Prop := less b a = false.
End Sort.
End sort.

(** ** The tag extracter *)

(** [TagExtracter] is used to extract tags from sentence. *)
Record TagExtracter : Type :=
  { seg : Segmenter; idf : Idf; stopWord : StopWord }.

Definition GetSegmenter (t : TagExtracter) : Segmenter := seg t.
Definition GetStopWord (t : TagExtracter) : StopWord := stopWord t.

(** *** Loading

    The three load methods read a file through a collaborator; what a
    file holds is outside the program, so the collaborators' loaders are
    variables of this section. A method returns the extractor it leaves
    behind and the error of the collaborator. *)
Section Loading.

(** [new(jiebago.Segmenter)], and [seg.LoadDictionary(fileName)]. *)
Variable new_Segmenter : Segmenter.
Variable Segmenter_LoadDictionary : Segmenter → string → Segmenter * error.
(** [idf.loadDictionary(fileName)] and [stopWord.loadDictionary(fileName)]. *)
Variable Idf_loadDictionary : Idf → string → Idf * error.
Variable StopWord_loadDictionary : StopWord → string → StopWord * error.

(** [LoadDictionary] reads the given filename and create a new dictionary. *)
Definition LoadDictionary (t : TagExtracter) (fileName : string)
  : TagExtracter * error :=
  let t := {| seg := seg t; idf := idf t; stopWord := NewStopWord |} in
  let t := {| seg := new_Segmenter; idf := idf t; stopWord := stopWord t |} in
  let r := Segmenter_LoadDictionary (seg t) fileName in
  ({| seg := r.1; idf := idf t; stopWord := stopWord t |}, r.2).

(** [LoadIdf] reads the given file and create a new Idf dictionary. *)
Definition LoadIdf (t : TagExtracter) (fileName : string)
  : TagExtracter * error :=
  let t := {| seg := seg t; idf := NewIdf; stopWord := stopWord t |} in
  let r := Idf_loadDictionary (idf t) fileName in
  ({| seg := seg t; idf := r.1; stopWord := stopWord t |}, r.2).

(** [LoadStopWords] reads the given file and create a new StopWord
    dictionary. *)
Definition LoadStopWords (t : TagExtracter) (fileName : string)
  : TagExtracter * error :=
  let t := {| seg := seg t; idf := idf t; stopWord := NewStopWord |} in
  let r := StopWord_loadDictionary (stopWord t) fileName in
  ({| seg := seg t; idf := idf t; stopWord := r.1 |}, r.2).

End Loading.

(** *** ExtractTags *)

(** The body of the first loop: one token received from [Cut]. *)
Definition count_token (t : TagExtracter) (freqMap : gmap string float)
  (w : string) : gmap string float :=
  let w := Go.TrimSpace w in
  if (Go.RuneCountInString w <? 2)%nat then freqMap
  else if IsStopWord (stopWord t) w then freqMap
  else match freqMap !! w with
       | Some f => <[w := (f + 1.0)%float]> freqMap
       | None => <[w := 1.0%float]> freqMap
       end.

(** The first loop, over the tokens of [t.seg.Cut(sentence, true)]. *)
Definition count_tokens (t : TagExtracter) (sentence : string)
  : gmap string float :=
  foldl (count_token t) ∅ (Cut (seg t) sentence true).

(** [total := 0.0; for _, freq := range freqMap { total += freq }] *)
Definition total_freq (freqMap : gmap string float) : float :=
  foldl (λ total kv, (total + kv.2)%float) 0%float (map_to_list freqMap).

(** [for k, v := range freqMap { freqMap[k] = v / total }] *)
Definition normalize (freqMap : gmap string float) : gmap string float :=
  (λ v, (v / total_freq freqMap)%float) <$> freqMap.

(** The body of the last loop: the segment of one entry, weighted by the
    IDF value of its key or by the median when the table lacks the key. *)
Definition weigh (t : TagExtracter) (kv : string * float) : Segment :=
  match Frequency (idf t) kv.1 with
  | Some freq => {| text := kv.1; weight := (freq * kv.2)%float |}
  | None => {| text := kv.1; weight := (median (idf t) * kv.2)%float |}
  end.

(** [sort.Sort(sort.Reverse(ws))] *)
Definition sort_reverse (ws : Segments) : Segments :=
  sort.Sort (sort.Reverse Segment_less) ws.

(** [if topK >= 0 && len(ws) > topK { tags = ws[:topK] } else { tags = ws }] *)
Definition top (topK : Z) (ws : Segments) : Segments :=
  if (0 <=? topK) && (Z.of_nat (length ws) >? topK)
  then take (Z.to_nat topK) ws else ws.

(** [ExtractTags] extracts the topK key words from sentence. *)
Definition ExtractTags (t : TagExtracter) (sentence : string) (topK : Z)
  : Segments :=
  let freqMap := count_tokens t sentence in
  let freqMap := normalize freqMap in
  let ws := weigh t <$> map_to_list freqMap in
  top topK (sort_reverse ws).

(** *** CNExtractTags *)

Section Digits.

(** The range table [unicode.Number] beyond Latin-1. *)
Variable Number : Go.rune → bool.

Definition isDigit (w : string) : bool :=
  if String.eqb w "" then false
  else forallb (λ d, Go.IsNumber Number d.1) (Go.range_string w).

(** The loop of [isPureDigitLetters], with its two flags. *)
Fixpoint scan_digit_letters (rs : list (Go.rune * nat)) (d l : bool) : bool :=
  match rs with
  | [] => d && l
  | (r, _) :: rs' =>
    if Go.IsNumber Number r then scan_digit_letters rs' true l
    else if ((0x41 <=? r) && (r <=? 0x41 + 25))
            || ((0x61 <=? r) && (r <=? 0x61 + 25))
    then scan_digit_letters rs' d true
    else false
  end.

Definition isPureDigitLetters (str : string) : bool :=
  if String.eqb str "" then false
  else scan_digit_letters (Go.range_string str) false false.

(** The variables of the first loop of [CNExtractTags]. *)
Record cn_state : Type :=
  { cn_freqMap : gmap string float; cn_words : list string; cn_numCount : Z }.

Definition cn_init : cn_state :=
  {| cn_freqMap := ∅; cn_words := []; cn_numCount := 0 |}.

(** The body of the first loop: one token received from [Cut]. *)
Definition cn_token (t : TagExtracter) (st : cn_state) (w : string)
  : cn_state :=
  let w := Go.TrimSpace w in
  if (Go.RuneCountInString w <? 2)%nat then st
  else if IsStopWord (stopWord t) w then st
  else
    let numCount :=
      if isDigit w then Go.int_wrap (cn_numCount st + 1) else cn_numCount st in
    if isDigit w && (numCount >? 0) then
      {| cn_freqMap := cn_freqMap st; cn_words := cn_words st;
         cn_numCount := numCount |}
    else
      {| cn_freqMap :=
           match cn_freqMap st !! w with
           | Some _ => <[w := 1.0%float]> (cn_freqMap st)
           | None => <[w := 1.0%float]> (cn_freqMap st)
           end;
         cn_words := cn_words st ++ [w];
         cn_numCount := numCount |}.

Definition cn_tokens (t : TagExtracter) (sentence : string) : cn_state :=
  foldl (cn_token t) cn_init (Cut (seg t) sentence true).

(** The body of the last loop: an entry whose key the IDF table lacks
    yields no segment. *)
Definition cn_weigh (t : TagExtracter) (kv : string * float)
  : option Segment :=
  match Frequency (idf t) kv.1 with
  | Some freq => Some {| text := kv.1; weight := (freq * kv.2)%float |}
  | None => None
  end.

(** [CNExtractTags] extracts the topK key words from sentence, and
    returns the words it kept. *)
Definition CNExtractTags (t : TagExtracter) (sentence : string) (topK : Z)
  : Segments * list string :=
  let st := cn_tokens t sentence in
  let ws := omap (cn_weigh t) (map_to_list (cn_freqMap st)) in
  (top topK (sort_reverse ws), cn_words st).

End Digits.

(** ** Instances used in the examples *)

(** A stand-in for the segmenter: it cuts the sentence at blanks. *)
Fixpoint cut_at_blanks (cur s : string) : list string :=
  match s with
  | EmptyString => [cur]
  | String c s' =>
    if Ascii.eqb c " " then cur :: cut_at_blanks "" s'
    else cut_at_blanks (cur ++ String c "") s'
  end.

Definition blank_segmenter : Segmenter :=
  {| Cut := λ sentence _, cut_at_blanks "" sentence |}.

(** No number beyond Latin-1: enough for sentences in ASCII. *)
Definition no_Number : Go.rune → bool := λ _, false.

(** The IDF table of the specification's scenario: 2.0 for quick, 1.5
    for brown, median 1.0. *)
Definition fox_idf : Idf :=
  {| table := <["quick"%string := 2.0%float]>
                (<["brown"%string := 1.5%float]> ∅);
     median := 1.0%float |}.

(** The extractor of that scenario: no stop word. *)
Definition fox_extracter : TagExtracter :=
  {| seg := blank_segmenter; idf := fox_idf; stopWord := NewStopWord |}.

(** The same with the as a stop word. *)
Definition fox_stop_extracter : TagExtracter :=
  {| seg := blank_segmenter; idf := fox_idf;
     stopWord := {| stopWordMap := {["the"%string]} |} |}.

(** An extractor whose IDF table holds a NaN for ab. *)
Definition nan_extracter : TagExtracter :=
  {| seg := blank_segmenter;
     idf := {| table := {["ab"%string := PrimFloat.nan]};
               median := 1.0%float |};
     stopWord := NewStopWord |}.

(** An extractor with an empty IDF table and no stop word. *)
Definition bare_extracter : TagExtracter :=
  {| seg := blank_segmenter;
     idf := {| table := ∅; median := 1.0%float |};
     stopWord := NewStopWord |}.

(** ** What the specification calls the surviving tokens *)

(** A trimmed token survives the filter of both extractors when it has at
    least two characters and is no stop word. *)
Definition survives (t : TagExtracter) (w : string) : bool :=
  negb (Go.RuneCountInString w <? 2)%nat && negb (IsStopWord (stopWord t) w).

(** The trimmed tokens of a sentence, in the order [Cut] delivers them. *)
Definition trimmed (t : TagExtracter) (sentence : string) : list string :=
  Go.TrimSpace <$> Cut (seg t) sentence true.

(** The surviving token occurrences of a sentence, in order. *)
Definition surviving (t : TagExtracter) (sentence : string) : list string :=
  List.filter (survives t) (trimmed t sentence).

(** The set of the strings of a list. *)
Definition string_set (l : list string) : gset string := list_to_set l.

(** The segments before the top-K selection. *)
Definition ranked (t : TagExtracter) (sentence : string) : Segments :=
  sort_reverse (weigh t <$> map_to_list (normalize (count_tokens t sentence))).

Section DigitsSpec.
Variable Number : Go.rune → bool.

(** A surviving token is kept by [CNExtractTags] unless it is numeric. *)
Definition cn_keeps (t : TagExtracter) (w : string) : bool :=
  survives t w && negb (isDigit Number w).

(** The segments of [CNExtractTags] before the top-K selection. *)
Definition cn_ranked (t : TagExtracter) (sentence : string) : Segments :=
  sort_reverse
    (omap (cn_weigh t) (map_to_list (cn_freqMap (cn_tokens Number t sentence)))).

(** What the first loop of [CNExtractTags] maintains whatever the counter
    holds: the words are survivors, the keys of the map are the words, and
    every value is 1.0. *)
Definition cn_inv (t : TagExtracter) (st : cn_state) : Prop :=
  (∀ w, w ∈ cn_words st → survives t w = true)
  ∧ dom (cn_freqMap st) = string_set (cn_words st)
  ∧ (∀ k v, cn_freqMap st !! k = Some v → v = 1.0%float).

End DigitsSpec.

(** ** What the specification calls sorted *)

(** [a] and [b] are neighbours in [tags], [a] first. *)
Definition adjacent (tags : Segments) (a b : Segment) : Prop :=
  ∃ i : nat, tags !! i = Some a ∧ tags !! S i = Some b.

(** No weight of the collection is a NaN. *)
Definition no_NaN (ws : Segments) : bool :=
  forallb (λ s, negb (PrimFloat.is_nan (weight s))) ws.

(** The order the code produces: between neighbours the weight does not
    increase, and neighbours of equal weight have their texts in strictly
    descending byte-wise order. *)
Definition sorted_descending (tags : Segments) : Prop :=
  ∀ a b, adjacent tags a b →
    (weight b <=? weight a)%float = true
    ∧ ((weight a =? weight b)%float = true
       → String.ltb (text b) (text a) = true).

(** The order the specification states: between neighbours the weight
    does not increase, and neighbours of equal weight have their texts in
    ascending order. *)
Definition sorted_as_specified (tags : Segments) : Prop :=
  ∀ a b, adjacent tags a b →
    (weight b <=? weight a)%float = true
    ∧ ((weight a =? weight b)%float = true
       → String.leb (text a) (text b) = true).

(** ** Comparisons as orders

    The order of [Less] is the lexicographic combination of the order of
    float64 values with the order of strings. *)

(** A three-way comparison that behaves as a total preorder. *)
Class CmpOrder {A : Type} (c : A → A → comparison) : Prop :=
  { cmp_antisym : ∀ x y, c y x = CompOpp (c x y);
    cmp_eq_l : ∀ x y z, c x y = Eq → c x z = c y z;
    cmp_lt_trans : ∀ x y z, c x y = Lt → c y z = Lt → c x z = Lt }.

(** The lexicographic combination of two comparisons, on the images of
    a value under two projections. *)
Definition lex_cmp {X A B : Type} (ca : A → A → comparison)
  (cb : B → B → comparison) (f : X → A) (g : X → B) (x y : X) : comparison :=
  match ca (f x) (f y) with
  | Eq => cb (g x) (g y)
  | r => r
  end.

(** The place of a float64 value that is not a NaN in the order of
    [SFcompare]: its class, then exponent and mantissa, negated for the
    negative values. *)
Definition float_key (x : spec_float) : Z * (Z * Z) :=
  match x with
  | S754_infinity true => (-2, (0, 0))
  | S754_finite true m e => (-1, (- e, Zneg m))
  | S754_zero _ => (0, (0, 0))
  | S754_finite false m e => (1, (e, Zpos m))
  | S754_infinity false => (2, (0, 0))
  | S754_nan => (3, (0, 0))
  end.

Definition key_cmp : Z * (Z * Z) → Z * (Z * Z) → comparison :=
  lex_cmp Z.compare (lex_cmp Z.compare Z.compare fst snd) fst snd.

(** The comparison of two float64 values that are not NaNs. *)
Definition float_cmp (x y : float) : comparison :=
  key_cmp (float_key (Prim2SF x)) (float_key (Prim2SF y)).

(** The comparison behind [Less]: by weight, then by text. *)
Definition Segment_cmp : Segment → Segment → comparison :=
  lex_cmp float_cmp String.compare weight text.

(** [a] may stand before [b] in the sorted collection, and both weights
    are numbers. *)
Definition ranks_before (a b : Segment) : Prop :=
  PrimFloat.is_nan (weight a) = false
  ∧ PrimFloat.is_nan (weight b) = false
  ∧ sort.not_before (sort.Reverse Segment_less) a b.

(** ** Further notions *)

(** The test [isPureDigitLetters] makes for an ASCII letter. *)
Definition is_letter (r : Go.rune) : bool :=
  ((0x41 <=? r) && (r <=? 0x41 + 25)) || ((0x61 <=? r) && (r <=? 0x61 + 25)).

(** Case analysis on the boolean tests of a goal. *)
Ltac bool_cases :=
  repeat match goal with
         | |- context [forallb ?f ?l] => destruct (forallb f l)
         | |- context [existsb ?f ?l] => destruct (existsb f l)
         | b : bool |- _ => destruct b
         end; simpl; try done.

(** The number of occurrences of [w] in [l]. *)
Definition occurrences (w : string) (l : list string) : nat :=
  length (List.filter (String.eqb w) l).

(** What the first loop of [ExtractTags] does to the entry of a token at
    one more occurrence of it. *)
Definition bump (o : option float) : option float :=
  match o with
  | Some f => Some (f + 1.0)%float
  | None => Some 1.0%float
  end.

(** The entry of a token after [n] occurrences: none for no occurrence,
    1.0 for the first one and 1.0 more for each further one. *)
Definition count_after (n : nat) : option float :=
  match n with
  | 0%nat => None
  | S k => Some (Nat.iter k (λ f, (f + 1.0)%float) 1.0%float)
  end.

(** * Properties *)

(** ** The first loop of ExtractTags *)

Lemma count_token_survives t m w :
  survives t (Go.TrimSpace w) = true →
  count_token t m w
  = <[Go.TrimSpace w :=
        match m !! Go.TrimSpace w with
        | Some f => (f + 1.0)%float
        | None => 1.0%float
        end]> m.
Proof.
  unfold survives, count_token. intros [H1 H2]%andb_true_iff.
  apply negb_true_iff in H1. apply negb_true_iff in H2.
  rewrite H1, H2. by destruct (m !! Go.TrimSpace w).
Qed.

Lemma count_token_filtered t m w :
  survives t (Go.TrimSpace w) = false → count_token t m w = m.
Proof.
  unfold survives, count_token. intros H.
  destruct (Go.RuneCountInString (Go.TrimSpace w) <? 2)%nat; [done|].
  destruct (IsStopWord (stopWord t) (Go.TrimSpace w)); [done|]. done.
Qed.

Lemma dom_count_token t m w :
  dom (count_token t m w)
  = dom m ∪ string_set (List.filter (survives t) [Go.TrimSpace w]).
Proof.
  unfold string_set. simpl.
  destruct (survives t (Go.TrimSpace w)) eqn:E.
  - rewrite count_token_survives by done. rewrite dom_insert_L. simpl. set_solver.
  - rewrite count_token_filtered by done. simpl. set_solver.
Qed.

Lemma dom_foldl_count_token t toks m :
  dom (foldl (count_token t) m toks)
  = dom m ∪ string_set (List.filter (survives t) (Go.TrimSpace <$> toks)).
Proof.
  revert m. induction toks as [|w toks IH]; intros m; simpl.
  - unfold string_set. simpl. set_solver.
  - rewrite IH, dom_count_token. unfold string_set. simpl.
    destruct (survives t (Go.TrimSpace w)); simpl; set_solver.
Qed.

Lemma dom_count_tokens t sentence :
  dom (count_tokens t sentence) = string_set (surviving t sentence).
Proof.
  unfold count_tokens, surviving, trimmed.
  rewrite dom_foldl_count_token, dom_empty_L. set_solver.
Qed.

(** ** Sorting *)

Section SortFacts.
Context {A : Type} (less : A → A → bool).

Lemma insert_Permutation x l : sort.insert less x l ≡ₚ x :: l.
Proof.
  induction l as [|y l IH]; simpl; [done|].
  destruct (less x y); [done|]. rewrite IH. apply Permutation_swap.
Qed.

Lemma Sort_Permutation l : sort.Sort less l ≡ₚ l.
Proof.
  induction l as [|x l IH]; simpl; [done|].
  unfold sort.Sort in *. simpl. by rewrite insert_Permutation, IH.
Qed.

Lemma Sort_length l : length (sort.Sort less l) = length l.
Proof. apply Permutation_length, Sort_Permutation. Qed.

Lemma elem_of_Sort x l : x ∈ sort.Sort less l ↔ x ∈ l.
Proof. by rewrite Sort_Permutation. Qed.

End SortFacts.

(** ** The top-K selection *)

Lemma top_negative topK (ws : Segments) : topK < 0 → top topK ws = ws.
Proof.
  intros H. unfold top. destruct (Z.leb_spec 0 topK); [lia|done].
Qed.

Lemma top_length_le topK (ws : Segments) :
  0 ≤ topK → (length (top topK ws) ≤ Z.to_nat topK)%nat.
Proof.
  intros H. unfold top. destruct (Z.leb_spec 0 topK); [|lia]. simpl.
  destruct (Z.gtb_spec (Z.of_nat (length ws)) topK).
  - rewrite length_take. lia.
  - lia.
Qed.

Lemma top_sublist topK (ws : Segments) : top topK ws `prefix_of` ws.
Proof.
  unfold top. destruct (_ && _); [apply prefix_take|done].
Qed.

Lemma elem_of_top topK (ws : Segments) s : s ∈ top topK ws → s ∈ ws.
Proof.
  intros H. destruct (top_sublist topK ws) as [k Hk]. rewrite Hk. set_solver.
Qed.

(** ** The collection ExtractTags builds *)

Lemma text_weigh t kv : text (weigh t kv) = kv.1.
Proof. unfold weigh. by destruct (Frequency (idf t) kv.1). Qed.

Lemma dom_normalize m : dom (normalize m) = dom m.
Proof. unfold normalize. apply dom_fmap_L. Qed.

Lemma ExtractTags_ranked t sentence topK :
  ExtractTags t sentence topK = top topK (ranked t sentence).
Proof. done. Qed.

Lemma ranked_length t sentence :
  length (ranked t sentence) = size (string_set (surviving t sentence)).
Proof.
  unfold ranked, sort_reverse.
  rewrite Sort_length, length_fmap, length_map_to_list.
  rewrite <-size_dom, dom_normalize, dom_count_tokens. done.
Qed.

Lemma elem_of_ranked t sentence s :
  s ∈ ranked t sentence → text s ∈ surviving t sentence.
Proof.
  unfold ranked, sort_reverse. rewrite elem_of_Sort.
  intros ([k v] & -> & Hkv)%list_elem_of_fmap.
  rewrite text_weigh. simpl.
  apply elem_of_map_to_list in Hkv.
  assert (k ∈ dom (normalize (count_tokens t sentence))) as Hd
    by (apply elem_of_dom; eauto).
  rewrite dom_normalize, dom_count_tokens in Hd.
  by apply elem_of_list_to_set in Hd.
Qed.

Lemma elem_of_surviving t sentence w :
  w ∈ surviving t sentence ↔ w ∈ trimmed t sentence ∧ survives t w = true.
Proof. unfold surviving. rewrite !list_elem_of_In. apply filter_In. Qed.

Lemma survives_spec t w :
  survives t w = true
  ↔ (2 ≤ Go.RuneCountInString w)%nat ∧ IsStopWord (stopWord t) w = false.
Proof.
  unfold survives. rewrite andb_true_iff, !negb_true_iff.
  rewrite Nat.ltb_ge. done.
Qed.

(** ** The first loop of CNExtractTags *)

Lemma foldl_invariant {S T : Type} (f : S → T → S) (P : S → Prop) l st :
  (∀ st w, P st → P (f st w)) → P st → P (foldl f st l).
Proof.
  intros Hf. revert st. induction l as [|w l IH]; intros st H; simpl; auto.
Qed.

Lemma int_wrap_small z : - 2 ^ 63 ≤ z < 2 ^ 63 → Go.int_wrap z = z.
Proof.
  intros H. unfold Go.int_wrap. rewrite Z.mod_small; lia.
Qed.

Section DigitsFacts.
Variable Number : Go.rune → bool.

(** One step either leaves the map and the words alone, or appends a
    surviving token and stores 1.0 for it. *)
Lemma cn_token_shape t st w :
  (cn_freqMap (cn_token Number t st w) = cn_freqMap st
   ∧ cn_words (cn_token Number t st w) = cn_words st)
  ∨ (survives t (Go.TrimSpace w) = true
     ∧ cn_freqMap (cn_token Number t st w)
       = <[Go.TrimSpace w := 1.0%float]> (cn_freqMap st)
     ∧ cn_words (cn_token Number t st w) = cn_words st ++ [Go.TrimSpace w]).
Proof.
  unfold cn_token, survives.
  destruct (Go.RuneCountInString (Go.TrimSpace w) <? 2)%nat; [by left|].
  destruct (IsStopWord (stopWord t) (Go.TrimSpace w)); [by left|].
  destruct (_ && _); [by left|]. right. simpl.
  split; [done|]. split; [|done].
  by destruct (cn_freqMap st !! Go.TrimSpace w).
Qed.

Lemma cn_token_inv t st w : cn_inv t st → cn_inv t (cn_token Number t st w).
Proof.
  intros (Hw & Hd & Hv). unfold cn_inv.
  destruct (cn_token_shape t st w) as [[E1 E2]|(Hs & E1 & E2)];
    rewrite E1, E2; [done|].
  split; [|split].
  - intros w' [?| ->%list_elem_of_singleton]%elem_of_app; auto.
  - rewrite dom_insert_L, Hd. unfold string_set.
    rewrite list_to_set_app_L. set_solver.
  - intros k v. rewrite lookup_insert. case_decide; [congruence|eauto].
Qed.

Lemma cn_tokens_inv t sentence : cn_inv t (cn_tokens Number t sentence).
Proof.
  unfold cn_tokens. apply foldl_invariant.
  - intros. by apply cn_token_inv.
  - split; [|split]; simpl.
    + intros w H. by apply elem_of_nil in H.
    + unfold string_set. simpl. apply dom_empty_L.
    + intros k v H. by rewrite lookup_empty in H.
Qed.

(** While the counter has not reached the largest [int], a step is the
    plain filter: a numeric survivor only advances the counter. *)
Lemma cn_token_bounded t st w :
  0 ≤ cn_numCount st < 2 ^ 63 - 1 →
  cn_token Number t st w =
  if cn_keeps Number t (Go.TrimSpace w) then
    {| cn_freqMap := <[Go.TrimSpace w := 1.0%float]> (cn_freqMap st);
       cn_words := cn_words st ++ [Go.TrimSpace w];
       cn_numCount := cn_numCount st |}
  else
    {| cn_freqMap := cn_freqMap st; cn_words := cn_words st;
       cn_numCount :=
         if survives t (Go.TrimSpace w) then cn_numCount st + 1
         else cn_numCount st |}.
Proof.
  intros Hn. unfold cn_token, cn_keeps, survives.
  destruct (Go.RuneCountInString (Go.TrimSpace w) <? 2)%nat; simpl;
    [by destruct st|].
  destruct (IsStopWord (stopWord t) (Go.TrimSpace w)); simpl;
    [by destruct st|].
  destruct (isDigit Number (Go.TrimSpace w)); simpl.
  - rewrite int_wrap_small by lia.
    destruct (Z.gtb_spec (cn_numCount st + 1) 0); [done|lia].
  - by destruct (cn_freqMap st !! Go.TrimSpace w).
Qed.

Lemma cn_token_numCount t st w :
  0 ≤ cn_numCount st < 2 ^ 63 - 1 →
  cn_numCount st ≤ cn_numCount (cn_token Number t st w) ≤ cn_numCount st + 1.
Proof.
  intros Hn. rewrite cn_token_bounded by done.
  destruct (cn_keeps Number t _); simpl; [lia|].
  destruct (survives t _); lia.
Qed.

Lemma cn_foldl_bounded t toks st :
  0 ≤ cn_numCount st →
  cn_numCount st + Z.of_nat (length toks) < 2 ^ 63 →
  let st' := foldl (cn_token Number t) st toks in
  cn_words st' = cn_words st ++ List.filter (cn_keeps Number t) (Go.TrimSpace <$> toks)
  ∧ cn_freqMap st'
    = foldl (λ m w, <[w := 1.0%float]> m) (cn_freqMap st)
        (List.filter (cn_keeps Number t) (Go.TrimSpace <$> toks))
  ∧ 0 ≤ cn_numCount st' ≤ cn_numCount st + Z.of_nat (length toks).
Proof.
  revert st. induction toks as [|w toks IH]; intros st H0 Hb; simpl in *.
  - rewrite app_nil_r. repeat split; lia.
  - assert (0 ≤ cn_numCount st < 2 ^ 63 - 1) as Hn by lia.
    pose proof (cn_token_numCount t st w Hn) as Hc.
    destruct (IH (cn_token Number t st w)) as (Hw & Hm & Hk); [lia|lia|].
    rewrite Hw, Hm. rewrite cn_token_bounded by done.
    rewrite cn_token_bounded in Hk by done.
    destruct (cn_keeps Number t (Go.TrimSpace w)); simpl in *.
    + rewrite <-app_assoc. repeat split; lia.
    + repeat split; destruct (survives t (Go.TrimSpace w)); lia.
Qed.

End DigitsFacts.

(** ** The texts of the collections *)

Lemma sort_reverse_Permutation ws : sort_reverse ws ≡ₚ ws.
Proof. apply Sort_Permutation. Qed.

Lemma ranked_texts t sentence :
  text <$> ranked t sentence
  ≡ₚ (map_to_list (normalize (count_tokens t sentence))).*1.
Proof.
  unfold ranked. rewrite sort_reverse_Permutation, <-list_fmap_compose.
  erewrite list_fmap_ext; [reflexivity|].
  intros _ kv _. apply text_weigh.
Qed.

Lemma ranked_NoDup t sentence : NoDup (text <$> ranked t sentence).
Proof. rewrite ranked_texts. apply NoDup_fst_map_to_list. Qed.

Lemma lookup_normalize_surviving t sentence w :
  is_Some (normalize (count_tokens t sentence) !! w)
  ↔ w ∈ surviving t sentence.
Proof.
  rewrite <-elem_of_dom, dom_normalize, dom_count_tokens.
  unfold string_set. apply elem_of_list_to_set.
Qed.

Lemma ranked_distinct_survivors t sentence :
  text <$> ranked t sentence ≡ₚ remove_dups (surviving t sentence).
Proof.
  apply NoDup_Permutation.
  - apply ranked_NoDup.
  - apply NoDup_remove_dups.
  - intros w. rewrite elem_of_remove_dups, ranked_texts.
    rewrite <-lookup_normalize_surviving, list_elem_of_fmap. split.
    + intros ([k v] & -> & H). apply elem_of_map_to_list in H. eauto.
    + intros [v H]. exists (w, v). split; [done|].
      by apply elem_of_map_to_list.
Qed.

Lemma cn_weigh_Some t kv s :
  cn_weigh t kv = Some s ↔
  ∃ freq, Frequency (idf t) kv.1 = Some freq
          ∧ s = {| text := kv.1; weight := (freq * kv.2)%float |}.
Proof.
  unfold cn_weigh. destruct (Frequency (idf t) kv.1) as [f|].
  - split; [intros [= <-]; eauto|]. by intros (? & [= <-] & ->).
  - split; [done|]. by intros (? & ? & _).
Qed.

Lemma elem_of_cn_ranked Number t sentence s :
  s ∈ cn_ranked Number t sentence ↔
  ∃ v freq, cn_freqMap (cn_tokens Number t sentence) !! text s = Some v
            ∧ Frequency (idf t) (text s) = Some freq
            ∧ weight s = (freq * v)%float.
Proof.
  unfold cn_ranked. rewrite sort_reverse_Permutation, list_elem_of_omap.
  split.
  - intros ([k v] & Hkv & (freq & Hf & ->)%cn_weigh_Some).
    apply elem_of_map_to_list in Hkv. simpl in *. eauto.
  - intros (v & freq & Hv & Hf & Hw). exists (text s, v).
    split; [by apply elem_of_map_to_list|].
    apply cn_weigh_Some. exists freq. split; [done|].
    destruct s; simpl in *. by rewrite Hw.
Qed.

Lemma cn_ranked_NoDup Number t sentence :
  NoDup (text <$> cn_ranked Number t sentence).
Proof.
  unfold cn_ranked. rewrite sort_reverse_Permutation.
  pose proof (NoDup_fst_map_to_list (cn_freqMap (cn_tokens Number t sentence)))
    as H.
  induction (map_to_list (cn_freqMap (cn_tokens Number t sentence)))
    as [|kv l IH]; simpl; [constructor|].
  rewrite fmap_cons in H. apply NoDup_cons in H as [Hn H]. specialize (IH H).
  destruct (cn_weigh t kv) as [s|] eqn:E; simpl; [|done].
  apply cn_weigh_Some in E as (freq & _ & ->). simpl.
  apply NoDup_cons. split; [|done].
  intros (s' & Heq & Hs')%list_elem_of_fmap. apply Hn.
  apply list_elem_of_omap in Hs' as (kv' & Hkv' & (? & _ & ->)%cn_weigh_Some).
  simpl in Heq. apply list_elem_of_fmap. eauto.
Qed.

Lemma CNExtractTags_ranked Number t sentence topK :
  CNExtractTags Number t sentence topK
  = (top topK (cn_ranked Number t sentence),
     cn_words (cn_tokens Number t sentence)).
Proof. done. Qed.

Lemma top_NoDup topK (ws : Segments) :
  NoDup (text <$> ws) → NoDup (text <$> top topK ws).
Proof.
  intros H. destruct (top_sublist topK ws) as [k Hk].
  rewrite Hk, fmap_app in H. by apply NoDup_app in H as [H _].
Qed.

(** ** The order of float64 values and of strings *)

Lemma SFcompare_antisym x y :
  SFcompare y x = option_map CompOpp (SFcompare x y).
Proof.
  destruct x as [[]|[]| |[] mx ex], y as [[]|[]| |[] my ey];
    simpl; try reflexivity;
    rewrite (Z.compare_antisym ex ey); destruct (ex ?= ey); simpl;
    try reflexivity;
    change (Pos.compare_cont Eq my mx) with (Pos.compare my mx);
    change (Pos.compare_cont Eq mx my) with (Pos.compare mx my);
    rewrite (Pos.compare_antisym mx my); by destruct (mx ?= my)%positive.
Qed.

Lemma SFcompare_None x y :
  SFcompare x y = None → SFcompare x x = None ∨ SFcompare y y = None.
Proof.
  destruct x as [[]|[]| |[] mx ex], y as [[]|[]| |[] my ey];
    simpl; intros; try discriminate; auto.
Qed.

(** The comparison of two float64 values; [None] when one is NaN. *)
Lemma not_nan_compare x :
  PrimFloat.is_nan x = false → SFcompare (Prim2SF x) (Prim2SF x) = Some Eq.
Proof.
  unfold PrimFloat.is_nan. intros H%negb_false_iff.
  rewrite FloatAxioms.eqb_spec in H. unfold SFeqb in H.
  by destruct (SFcompare _ _) as [[]|].
Qed.

Lemma float_compare_total x y :
  PrimFloat.is_nan x = false → PrimFloat.is_nan y = false →
  ∃ c, SFcompare (Prim2SF x) (Prim2SF y) = Some c
       ∧ SFcompare (Prim2SF y) (Prim2SF x) = Some (CompOpp c).
Proof.
  intros Hx%not_nan_compare Hy%not_nan_compare.
  destruct (SFcompare (Prim2SF x) (Prim2SF y)) as [c|] eqn:E.
  - exists c. split; [done|]. by rewrite SFcompare_antisym, E.
  - apply SFcompare_None in E as [E|E]; congruence.
Qed.

(** For two numbers, [a < b] fails exactly when [b <= a] holds. *)
Lemma float_not_ltb_leb x y :
  PrimFloat.is_nan x = false → PrimFloat.is_nan y = false →
  (x <? y)%float = false → (y <=? x)%float = true.
Proof.
  intros Hx Hy. rewrite FloatAxioms.ltb_spec, FloatAxioms.leb_spec. unfold SFltb, SFleb.
  destruct (float_compare_total x y Hx Hy) as (c & -> & ->).
  by destruct c.
Qed.

Lemma float_eqb_leb x y : (x =? y)%float = true → (y <=? x)%float = true.
Proof.
  rewrite FloatAxioms.eqb_spec, FloatAxioms.leb_spec. unfold SFeqb, SFleb.
  rewrite (SFcompare_antisym (Prim2SF x) (Prim2SF y)).
  by destruct (SFcompare (Prim2SF x) (Prim2SF y)) as [[]|].
Qed.

Lemma float_eqb_sym x y : (x =? y)%float = (y =? x)%float.
Proof.
  rewrite !FloatAxioms.eqb_spec. unfold SFeqb.
  rewrite (SFcompare_antisym (Prim2SF x) (Prim2SF y)).
  by destruct (SFcompare (Prim2SF x) (Prim2SF y)) as [[]|].
Qed.

Lemma float_ltb_asym x y : (x <? y)%float = true → (y <? x)%float = false.
Proof.
  rewrite !FloatAxioms.ltb_spec. unfold SFltb.
  rewrite (SFcompare_antisym (Prim2SF x) (Prim2SF y)).
  by destruct (SFcompare (Prim2SF x) (Prim2SF y)) as [[]|].
Qed.

Lemma float_eqb_not_ltb x y : (x =? y)%float = true → (x <? y)%float = false.
Proof.
  rewrite FloatAxioms.eqb_spec, FloatAxioms.ltb_spec. unfold SFeqb, SFltb.
  by destruct (SFcompare (Prim2SF x) (Prim2SF y)) as [[]|].
Qed.

Lemma String_ltb_asym s1 s2 :
  String.ltb s1 s2 = true → String.ltb s2 s1 = false.
Proof.
  unfold String.ltb. rewrite (String.compare_antisym s2 s1).
  by destruct (String.compare s1 s2).
Qed.

Lemma String_not_ltb s1 s2 :
  s1 ≠ s2 → String.ltb s1 s2 = false → String.ltb s2 s1 = true.
Proof.
  unfold String.ltb. rewrite (String.compare_antisym s2 s1).
  destruct (String.compare s1 s2) eqn:E; try done.
  apply String.compare_eq_iff in E. congruence.
Qed.

(** ** The order of segments *)

Lemma Segment_less_asym a b :
  Segment_less a b = true → Segment_less b a = false.
Proof.
  unfold Segment_less. rewrite (float_eqb_sym (weight b)).
  destruct (weight a =? weight b)%float.
  - apply String_ltb_asym.
  - apply float_ltb_asym.
Qed.

Lemma Less_lookup (ss : Segments) i j a b :
  ss !! i = Some a → ss !! j = Some b → Less ss i j = Some (Segment_less a b).
Proof. intros Ha Hb. unfold Less. by rewrite Ha, Hb. Qed.

(** What [Less(a, b) = false] says about two segments whose weights are
    numbers and whose texts differ: [a] ranks at least as high as [b]. *)
Lemma Segment_not_less a b :
  PrimFloat.is_nan (weight a) = false →
  PrimFloat.is_nan (weight b) = false →
  text a ≠ text b →
  Segment_less a b = false →
  (weight b <=? weight a)%float = true
  ∧ ((weight a =? weight b)%float = true
     → String.ltb (text b) (text a) = true).
Proof.
  intros Ha Hb Ht. unfold Segment_less.
  destruct (weight a =? weight b)%float eqn:E; intros H.
  - split; [by apply float_eqb_leb|]. intros _. by apply String_not_ltb.
  - split; [by apply float_not_ltb_leb|done].
Qed.

(** ** Sorted collections *)

Section SortSorted.
Context {A : Type} (less : A → A → bool).
Hypothesis less_asym : ∀ a b, less a b = true → less b a = false.

Lemma insert_HdRel x y l :
  less x y = false → HdRel (sort.not_before less) y l → HdRel (sort.not_before less) y (sort.insert less x l).
Proof.
  intros Hxy Hl. destruct l as [|z l]; simpl.
  - by constructor.
  - destruct (less x z); constructor; [done|]. by inversion Hl.
Qed.

Lemma insert_Sorted x l :
  Sorted (sort.not_before less) l → Sorted (sort.not_before less) (sort.insert less x l).
Proof.
  induction 1 as [|y l Hs IH Hd]; simpl.
  - by repeat constructor.
  - destruct (less x y) eqn:E.
    + constructor; [by constructor|]. constructor. by apply less_asym.
    + constructor; [done|]. by apply insert_HdRel.
Qed.

Lemma Sort_Sorted l : Sorted (sort.not_before less) (sort.Sort less l).
Proof.
  induction l as [|x l IH]; [constructor|]. by apply insert_Sorted.
Qed.

End SortSorted.

Lemma Sorted_lookup_adjacent {A} (R : relation A) l i a b :
  Sorted R l → l !! i = Some a → l !! S i = Some b → R a b.
Proof.
  intros Hs. revert i. induction Hs as [|x l Hs IH Hd]; intros i Ha Hb.
  - done.
  - destruct i as [|i]; simpl in *.
    + injection Ha as ->. destruct Hd as [|y l' Hy]; [done|].
      simpl in Hb. by injection Hb as ->.
    + by apply (IH i).
Qed.

Lemma adjacent_top topK ws a b :
  adjacent (top topK ws) a b → adjacent ws a b.
Proof.
  intros (i & Ha & Hb). destruct (top_sublist topK ws) as [k Hk].
  exists i. rewrite Hk. split; by apply lookup_app_l_Some.
Qed.

Lemma adjacent_elem_of tags a b : adjacent tags a b → a ∈ tags ∧ b ∈ tags.
Proof.
  intros (i & Ha & Hb). split; by eapply list_elem_of_lookup_2.
Qed.

Lemma adjacent_texts tags a b :
  NoDup (text <$> tags) → adjacent tags a b → text a ≠ text b.
Proof.
  intros Hn (i & Ha & Hb) Heq.
  assert (i = S i); [|lia].
  eapply (NoDup_lookup _ _ _ _ Hn); rewrite list_lookup_fmap.
  - by rewrite Ha.
  - by rewrite Hb, Heq.
Qed.

Lemma no_NaN_elem_of ws s :
  no_NaN ws = true → s ∈ ws → PrimFloat.is_nan (weight s) = false.
Proof.
  unfold no_NaN. rewrite forallb_forall. intros H Hin%list_elem_of_In.
  apply H in Hin. by apply negb_true_iff in Hin.
Qed.

(** The result of [sort.Sort(sort.Reverse(ws))] is in descending order
    when its weights are numbers and its texts are distinct. *)
Lemma sort_reverse_descending ws :
  no_NaN (sort_reverse ws) = true →
  NoDup (text <$> sort_reverse ws) →
  sorted_descending (sort_reverse ws).
Proof.
  intros Hnan Hnd a b Hadj.
  destruct (adjacent_elem_of _ _ _ Hadj) as [Ha Hb].
  apply Segment_not_less; try by eapply no_NaN_elem_of.
  - by apply (adjacent_texts (sort_reverse ws)).
  - destruct Hadj as (i & Hi & HSi).
    apply (Sorted_lookup_adjacent
             (sort.not_before (sort.Reverse Segment_less))
             (sort_reverse ws) i a b); [|done..].
    apply Sort_Sorted. intros x y. apply Segment_less_asym.
Qed.

Lemma top_descending topK ws :
  sorted_descending ws → sorted_descending (top topK ws).
Proof. intros H a b Hadj%adjacent_top. by apply H. Qed.

(** ** The order of Less is total *)

Lemma cmp_eq_r {A} (c : A → A → comparison) `{!CmpOrder c} x y z :
  c y z = Eq → c x z = c x y.
Proof.
  intros H. rewrite (cmp_antisym (c:=c) z x), (cmp_antisym (c:=c) y x).
  f_equal. symmetry. by apply (cmp_eq_l (c:=c)).
Qed.

Lemma cmp_gt_trans {A} (c : A → A → comparison) `{!CmpOrder c} x y z :
  c x y = Gt → c y z = Gt → c x z = Gt.
Proof.
  intros H1 H2. rewrite (cmp_antisym (c:=c) z x).
  rewrite (cmp_lt_trans (c:=c) z y x); [done| |].
  - by rewrite (cmp_antisym (c:=c) y z), H2.
  - by rewrite (cmp_antisym (c:=c) x y), H1.
Qed.

(** Not being less is transitive. *)
Lemma cmp_not_lt_trans {A} (c : A → A → comparison) `{!CmpOrder c} x y z :
  c x y ≠ Lt → c y z ≠ Lt → c x z ≠ Lt.
Proof.
  destruct (c x y) eqn:E1; intros H1; [| done |].
  - by rewrite (cmp_eq_l (c:=c) x y z E1).
  - destruct (c y z) eqn:E2; intros H2; [| done |].
    + by rewrite (cmp_eq_r c x y z), E1.
    + by rewrite (cmp_gt_trans c x y z).
Qed.

#[local] Instance lex_cmp_order {X A B} (ca : A → A → comparison)
  (cb : B → B → comparison) (f : X → A) (g : X → B)
  `{!CmpOrder ca, !CmpOrder cb} : CmpOrder (lex_cmp ca cb f g).
Proof.
  split; unfold lex_cmp.
  - intros x y. rewrite (cmp_antisym (c:=ca) (f x) (f y)).
    destruct (ca (f x) (f y)); simpl; [apply (cmp_antisym (c:=cb))|done..].
  - intros x y z H.
    destruct (ca (f x) (f y)) eqn:E; try done.
    rewrite (cmp_eq_l (c:=ca) (f x) (f y) (f z) E).
    by rewrite (cmp_eq_l (c:=cb) (g x) (g y) (g z) H).
  - intros x y z H1 H2.
    destruct (ca (f x) (f y)) eqn:E1; try done.
    + rewrite (cmp_eq_l (c:=ca) (f x) (f y) (f z) E1).
      destruct (ca (f y) (f z)); try done.
      by apply (cmp_lt_trans (c:=cb) _ (g y)).
    + destruct (ca (f y) (f z)) eqn:E2; try done.
      * by rewrite (cmp_eq_r ca (f x) (f y) (f z) E2), E1.
      * by rewrite (cmp_lt_trans (c:=ca) (f x) (f y) (f z)).
Qed.

#[local] Instance Z_compare_order : CmpOrder Z.compare.
Proof.
  split.
  - intros x y. apply Z.compare_antisym.
  - intros x y z ->%Z.compare_eq. done.
  - intros x y z. rewrite !Z.compare_lt_iff. lia.
Qed.

#[local] Instance Ascii_compare_order : CmpOrder Ascii.compare.
Proof.
  split.
  - intros x y. apply Ascii.compare_antisym.
  - intros x y z ->%Ascii.compare_eq_iff. done.
  - intros x y z. unfold Ascii.compare. rewrite !N.compare_lt_iff. lia.
Qed.

#[local] Instance String_compare_order : CmpOrder String.compare.
Proof.
  split.
  - intros x y. apply String.compare_antisym.
  - intros x y z ->%String.compare_eq_iff. done.
  - intros x. induction x as [|a x IH]; intros [|b y] [|c z]; simpl;
      try done.
    destruct (Ascii.compare a b) eqn:E1; try done.
    + apply Ascii.compare_eq_iff in E1 as ->.
      destruct (Ascii.compare b c); try done. apply IH.
    + intros _. destruct (Ascii.compare b c) eqn:E2; try done.
      * apply Ascii.compare_eq_iff in E2 as <-. by rewrite E1.
      * by rewrite (cmp_lt_trans (c:=Ascii.compare) a b c).
Qed.

#[local] Instance key_cmp_order : CmpOrder key_cmp.
Proof. unfold key_cmp. apply _. Qed.

#[local] Instance float_cmp_order : CmpOrder float_cmp.
Proof.
  split; unfold float_cmp.
  - intros x y. apply (cmp_antisym (c:=key_cmp)).
  - intros x y z. apply (cmp_eq_l (c:=key_cmp)).
  - intros x y z. apply (cmp_lt_trans (c:=key_cmp)).
Qed.

#[local] Instance Segment_cmp_order : CmpOrder Segment_cmp.
Proof. unfold Segment_cmp. apply _. Qed.

(** [SFcompare] is the comparison of the keys, NaNs apart. *)
Lemma SFcompare_key x y :
  x ≠ S754_nan → y ≠ S754_nan →
  SFcompare x y = Some (key_cmp (float_key x) (float_key y)).
Proof.
  intros Hx Hy. unfold key_cmp, lex_cmp.
  destruct x as [[]|[]| |[] mx ex], y as [[]|[]| |[] my ey];
    simpl; try done.
  rewrite Z.compare_opp, (Z.compare_antisym ex ey).
  by destruct (ex ?= ey).
Qed.

Lemma not_nan_Prim2SF x :
  PrimFloat.is_nan x = false → Prim2SF x ≠ S754_nan.
Proof. intros H%not_nan_compare E. by rewrite E in H. Qed.

Lemma float_cmp_spec x y :
  PrimFloat.is_nan x = false → PrimFloat.is_nan y = false →
  (x =? y)%float = match float_cmp x y with Eq => true | _ => false end
  ∧ (x <? y)%float = match float_cmp x y with Lt => true | _ => false end.
Proof.
  intros Hx%not_nan_Prim2SF Hy%not_nan_Prim2SF.
  rewrite FloatAxioms.eqb_spec, FloatAxioms.ltb_spec.
  unfold SFeqb, SFltb, float_cmp. by rewrite SFcompare_key.
Qed.

Lemma Segment_less_cmp a b :
  PrimFloat.is_nan (weight a) = false →
  PrimFloat.is_nan (weight b) = false →
  Segment_less a b = match Segment_cmp a b with Lt => true | _ => false end.
Proof.
  intros Ha Hb. unfold Segment_less, Segment_cmp, lex_cmp.
  destruct (float_cmp_spec _ _ Ha Hb) as [-> ->].
  by destruct (float_cmp (weight a) (weight b)).
Qed.

Lemma ranks_before_cmp a b :
  ranks_before a b ↔
  PrimFloat.is_nan (weight a) = false
  ∧ PrimFloat.is_nan (weight b) = false ∧ Segment_cmp a b ≠ Lt.
Proof.
  unfold ranks_before, sort.not_before, sort.Reverse.
  split; intros (Ha & Hb & H); (split; [done|split; [done|]]).
  - rewrite Segment_less_cmp in H by done. by destruct (Segment_cmp a b).
  - rewrite Segment_less_cmp by done. by destruct (Segment_cmp a b).
Qed.

#[local] Instance ranks_before_trans : Transitive ranks_before.
Proof.
  intros a b c. rewrite !ranks_before_cmp.
  intros (Ha & Hb & H1) (_ & Hc & H2). split; [done|split; [done|]].
  by apply (cmp_not_lt_trans Segment_cmp a b c).
Qed.

Lemma Segment_cmp_Eq_text a b : Segment_cmp a b = Eq → text a = text b.
Proof.
  unfold Segment_cmp, lex_cmp.
  destruct (float_cmp (weight a) (weight b)); try done.
  apply String.compare_eq_iff.
Qed.

Lemma Sorted_ranks_before ws :
  no_NaN ws = true →
  Sorted (sort.not_before (sort.Reverse Segment_less)) ws →
  Sorted ranks_before ws.
Proof.
  intros Hn Hs. induction Hs as [|a ws Hs IH Hd]; [constructor|].
  simpl in Hn. apply andb_true_iff in Hn as [Ha%negb_true_iff Hn].
  constructor; [by apply IH|].
  destruct Hd as [|b ws' Hb]; constructor.
  simpl in Hn. apply andb_true_iff in Hn as [Hb'%negb_true_iff _]. done.
Qed.

Lemma no_NaN_Permutation ws ws' :
  ws ≡ₚ ws' → no_NaN ws = true → no_NaN ws' = true.
Proof.
  unfold no_NaN. rewrite !forallb_forall. intros Hp H s Hs.
  apply H. apply list_elem_of_In. rewrite Hp. by apply list_elem_of_In.
Qed.

Lemma NoDup_fmap_elem_of_inj {A B} (f : A → B) l x y :
  NoDup (f <$> l) → x ∈ l → y ∈ l → f x = f y → x = y.
Proof.
  intros Hn (i & Hi)%list_elem_of_lookup (j & Hj)%list_elem_of_lookup Heq.
  assert (i = j) as ->; [|congruence].
  apply (NoDup_lookup _ _ _ (f x) Hn); rewrite list_lookup_fmap.
  - by rewrite Hi.
  - by rewrite Hj, Heq.
Qed.

(** Whatever procedure sorts the collection, and in whatever order the
    entries of the map were visited, the result is the one of the model:
    a permutation of the collection that is sorted for the reversed
    [Less] is [sort_reverse] of it, when the weights are numbers and the
    texts are distinct. *)
Theorem Sort_unique ws ws' :
  no_NaN ws = true → NoDup (text <$> ws) →
  ws' ≡ₚ ws →
  Sorted (sort.not_before (sort.Reverse Segment_less)) ws' →
  ws' = sort_reverse ws.
Proof.
  intros Hn Hd Hp Hs.
  apply (Sorted_unique_strong ranks_before).
  - intros a b Ha Hb (_ & _ & H1)%ranks_before_cmp (_ & _ & H2)%ranks_before_cmp.
    apply (NoDup_fmap_elem_of_inj text ws); [done|by rewrite <-Hp| |].
    + by rewrite <-(sort_reverse_Permutation ws).
    + apply Segment_cmp_Eq_text.
      rewrite (cmp_antisym (c:=Segment_cmp) a b) in H2.
      by destruct (Segment_cmp a b).
  - apply Sorted_ranks_before; [|done]. by apply (no_NaN_Permutation ws).
  - apply Sorted_ranks_before.
    + apply (no_NaN_Permutation ws); [|done].
      by rewrite sort_reverse_Permutation.
    + apply Sort_Sorted. intros x y. apply Segment_less_asym.
  - by rewrite sort_reverse_Permutation.
Qed.

(** The collection does not depend on the order in which the loop over
    the frequency map visits its entries. *)
Corollary sort_reverse_order_independent ws ws' :
  no_NaN ws = true → NoDup (text <$> ws) → ws' ≡ₚ ws →
  sort_reverse ws' = sort_reverse ws.
Proof.
  intros Hn Hd Hp. apply Sort_unique; try done.
  - by rewrite sort_reverse_Permutation.
  - apply Sort_Sorted. intros x y. apply Segment_less_asym.
Qed.

(** The ranked collection of [ExtractTags] is the same for every order in
    which the last loop may visit the normalised frequency map. *)
Corollary ranked_order_independent t sentence entries :
  no_NaN (ranked t sentence) = true →
  entries ≡ₚ map_to_list (normalize (count_tokens t sentence)) →
  sort_reverse (weigh t <$> entries) = ranked t sentence.
Proof.
  intros Hn Hp. unfold ranked. apply sort_reverse_order_independent.
  - apply (no_NaN_Permutation (ranked t sentence)); [|done].
    apply sort_reverse_Permutation.
  - rewrite <-(sort_reverse_Permutation (weigh t <$> _)).
    apply ranked_NoDup.
  - by rewrite Hp.
Qed.

(** ** The claim about the order of the returned collection *)

(** C1, as the code has it. Provided no computed weight is a NaN, the
    collection returned by [ExtractTags], and the one returned by
    [CNExtractTags], is sorted: between neighbours the weight does not
    increase, and two neighbours of equal weight have their texts in
    strictly descending byte-wise order. [sort.Reverse] reverses the
    whole comparison of [Less], the comparison of the texts included. *)
Theorem tags_sorted_descending Number t sentence topK :
  (no_NaN (ranked t sentence) = true →
   sorted_descending (ExtractTags t sentence topK))
  ∧ (no_NaN (cn_ranked Number t sentence) = true →
     sorted_descending (CNExtractTags Number t sentence topK).1).
Proof.
  rewrite ExtractTags_ranked, CNExtractTags_ranked. simpl. split; intros H.
  - apply top_descending, sort_reverse_descending; [done|].
    apply ranked_NoDup.
  - apply top_descending, sort_reverse_descending; [done|].
    apply cn_ranked_NoDup.
Qed.

(** C1, as the specification states it, fails: the tokens ab and cd have
    the same weight 0.5 and are returned with cd first. It also fails
    when a weight is a NaN, which compares with nothing. *)
Lemma tags_sorted_as_specified_fails :
  ExtractTags bare_extracter "ab cd" (-1)
  = [ {| text := "cd"; weight := 0.5 |}; {| text := "ab"; weight := 0.5 |} ]
  ∧ ¬ sorted_as_specified (ExtractTags bare_extracter "ab cd" (-1))
  ∧ ¬ sorted_as_specified (ExtractTags nan_extracter "ab cd" (-1)).
Proof.
  assert (ExtractTags bare_extracter "ab cd" (-1)
          = [ {| text := "cd"; weight := 0.5 |};
              {| text := "ab"; weight := 0.5 |} ]) as E
    by (vm_compute; reflexivity).
  assert (ExtractTags nan_extracter "ab cd" (-1)
          = [ {| text := "ab"; weight := PrimFloat.nan |};
              {| text := "cd"; weight := 0.5 |} ]) as E'
    by (vm_compute; reflexivity).
  split; [done|]. rewrite E, E'. split; intros H.
  - destruct (H {| text := "cd"; weight := 0.5 |}
                {| text := "ab"; weight := 0.5 |}) as [_ H2].
    { exists 0%nat. split; reflexivity. }
    specialize (H2 eq_refl). vm_compute in H2. discriminate H2.
  - destruct (H {| text := "ab"; weight := PrimFloat.nan |}
                {| text := "cd"; weight := 0.5 |}) as [H1 _].
    { exists 0%nat. split; reflexivity. }
    vm_compute in H1. discriminate H1.
Qed.

(** The pair of the counterexample is in the order of the code. *)
Lemma tags_sorted_descending_witness :
  sorted_descending (ExtractTags bare_extracter "ab cd" (-1))
  ∧ sorted_descending
      (CNExtractTags no_Number fox_extracter "quick 12 brown quick" 1).1.
Proof.
  split.
  - apply (tags_sorted_descending no_Number bare_extracter "ab cd" (-1)).
    vm_compute. reflexivity.
  - apply (tags_sorted_descending no_Number fox_extracter
             "quick 12 brown quick" 1).
    vm_compute. reflexivity.
Defined.

(** A NaN in the IDF table yields a NaN weight, and then no arrangement of
    the collection has non-increasing weights. *)
Example NaN_weight_unordered :
  ∀ tags, tags ≡ₚ ExtractTags nan_extracter "ab cd" (-1) →
    ¬ (∀ a b, adjacent tags a b → (weight b <=? weight a)%float = true).
Proof.
  intros tags Hp H.
  assert (ExtractTags nan_extracter "ab cd" (-1)
          = [ {| text := "ab"; weight := PrimFloat.nan |};
              {| text := "cd"; weight := 0.5 |} ]) as E
    by (vm_compute; reflexivity).
  rewrite E in Hp. symmetry in Hp.
  apply Permutation_length_2_inv in Hp as [-> | ->].
  - specialize (H _ _ (ex_intro _ 0%nat (conj eq_refl eq_refl))).
    vm_compute in H. discriminate H.
  - specialize (H _ _ (ex_intro _ 0%nat (conj eq_refl eq_refl))).
    vm_compute in H. discriminate H.
Qed.

(** ** The weights of ExtractTags *)


(** The scenario of the specification. *)
Example ExtractTags_fox :
  ExtractTags fox_extracter "the quick brown fox the quick brown fox" 2
  = [ {| text := "quick"; weight := 0.5 |};
      {| text := "brown"; weight := 0.375 |} ].
Proof. vm_compute. reflexivity. Qed.

(** ** Loading a dictionary *)


(** ** The claims about lengths, filters and the IDF table *)

(** C2. When [topK >= 0] the collection [ExtractTags] returns has at most
    [max(topK, 0)] segments. When [topK] is negative the full collection
    is returned, and it holds exactly one segment per distinct surviving
    token: its texts are the distinct surviving tokens, up to order. *)
Theorem ExtractTags_length t sentence topK :
  (0 ≤ topK →
   (length (ExtractTags t sentence topK) ≤ Z.to_nat (Z.max topK 0))%nat)
  ∧ (topK < 0 →
     ExtractTags t sentence topK = ranked t sentence
     ∧ text <$> ExtractTags t sentence topK
       ≡ₚ remove_dups (surviving t sentence)
     ∧ length (ExtractTags t sentence topK)
       = length (remove_dups (surviving t sentence))).
Proof.
  rewrite ExtractTags_ranked. split; intros H.
  - rewrite Z.max_l by lia. by apply top_length_le.
  - rewrite top_negative by done. split; [done|].
    pose proof (ranked_distinct_survivors t sentence) as Hp.
    split; [done|].
    apply Permutation_length in Hp. by rewrite length_fmap in Hp.
Qed.

(** C7. When every token of the sentence is filtered out, the frequency
    map is empty, the normalisation loop ranges over the empty map, so
    that no quotient by the zero total is formed, and [ExtractTags]
    returns the empty collection. *)
Theorem ExtractTags_all_filtered t sentence topK :
  (∀ w, w ∈ Cut (seg t) sentence true →
        (Go.RuneCountInString (Go.TrimSpace w) < 2)%nat
        ∨ IsStopWord (stopWord t) (Go.TrimSpace w) = true) →
  count_tokens t sentence = ∅
  ∧ total_freq (count_tokens t sentence) = 0%float
  ∧ normalize (count_tokens t sentence) = ∅
  ∧ ExtractTags t sentence topK = [].
Proof.
  intros H.
  assert (count_tokens t sentence = ∅) as E.
  { apply dom_empty_inv_L. rewrite dom_count_tokens.
    unfold string_set. apply set_eq. intros w.
    rewrite elem_of_list_to_set, elem_of_surviving, survives_spec.
    unfold trimmed. rewrite list_elem_of_fmap.
    split; [|by intros ?%not_elem_of_empty].
    intros [(w0 & -> & Hw0) [Hlen Hstop]].
    destruct (H w0 Hw0) as [?|?]; [lia|congruence]. }
  unfold ExtractTags, normalize, total_freq. rewrite E.
  rewrite fmap_empty, map_to_list_empty. simpl.
  repeat split; try done.
  unfold top. destruct (_ && _); [apply take_nil|done].
Qed.


(** C4. Every segment [CNExtractTags] returns has a text that is a key of
    the IDF table. Before the top-K selection the texts are exactly the
    kept words that the table holds: a word the table lacks yields no
    segment, whatever the median is. *)
Theorem CNExtractTags_only_idf_keys Number t sentence topK :
  Forall (λ s, is_Some (Frequency (idf t) (text s)))
    (CNExtractTags Number t sentence topK).1
  ∧ (∀ w, w ∈ text <$> cn_ranked Number t sentence
          ↔ w ∈ (CNExtractTags Number t sentence topK).2
            ∧ is_Some (Frequency (idf t) w)).
Proof.
  rewrite CNExtractTags_ranked. simpl. split.
  - apply Forall_forall. intros s Hin%elem_of_top.
    apply elem_of_cn_ranked in Hin as (_ & freq & _ & Hf & _). eauto.
  - intros w. destruct (cn_tokens_inv Number t sentence) as (_ & Hd & _).
    assert (is_Some (cn_freqMap (cn_tokens Number t sentence) !! w)
            ↔ w ∈ cn_words (cn_tokens Number t sentence)) as Hdom.
    { rewrite <-elem_of_dom, Hd. unfold string_set.
      apply elem_of_list_to_set. }
    rewrite <-Hdom, list_elem_of_fmap. split.
    + intros (s & -> & (v & freq & Hv & Hf & _)%elem_of_cn_ranked). eauto.
    + intros [[v Hv] [freq Hf]].
      exists {| text := w; weight := (freq * v)%float |}. split; [done|].
      apply elem_of_cn_ranked. simpl. eauto.
Qed.

Lemma cn_tokens_bounded Number t sentence :
  Z.of_nat (length (Cut (seg t) sentence true)) < 2 ^ 63 →
  cn_words (cn_tokens Number t sentence)
  = List.filter (cn_keeps Number t) (trimmed t sentence).
Proof.
  intros Hb. unfold cn_tokens, trimmed.
  by destruct (cn_foldl_bounded Number t (Cut (seg t) sentence true) cn_init)
    as (-> & _); simpl; try lia.
Qed.

Lemma cn_freqMap_lookup Number t sentence w :
  cn_freqMap (cn_tokens Number t sentence) !! w
  = if bool_decide (w ∈ cn_words (cn_tokens Number t sentence))
    then Some 1.0%float else None.
Proof.
  destruct (cn_tokens_inv Number t sentence) as (_ & Hd & Hv).
  case_bool_decide as Hin.
  - assert (w ∈ dom (cn_freqMap (cn_tokens Number t sentence))) as Hdom.
    { rewrite Hd. unfold string_set. by apply elem_of_list_to_set. }
    apply elem_of_dom in Hdom as [v Hl]. rewrite Hl. f_equal. by eapply Hv.
  - apply not_elem_of_dom. rewrite Hd. unfold string_set.
    by rewrite elem_of_list_to_set.
Qed.

(** C5. In [CNExtractTags] the value accumulated for a token is 1.0
    however often the token occurs: every value of the frequency map is
    1.0, the map holds 1.0 for exactly the returned words, and it holds
    1.0 for every surviving token of the sentence that is not numeric.
    The weight of every returned segment is the IDF value of its text
    times 1.0, and every returned word that the IDF table holds has such
    a segment in the full collection. *)
Theorem CNExtractTags_presence_weight Number t sentence topK :
  map_Forall (λ _ v, v = 1.0%float) (cn_freqMap (cn_tokens Number t sentence))
  ∧ Forall (λ s, ∃ freq, Frequency (idf t) (text s) = Some freq
                         ∧ weight s = (freq * 1.0)%float)
      (CNExtractTags Number t sentence topK).1
  ∧ (∀ w, cn_freqMap (cn_tokens Number t sentence) !! w
          = if bool_decide (w ∈ (CNExtractTags Number t sentence topK).2)
            then Some 1.0%float else None)
  ∧ (∀ w freq,
       w ∈ (CNExtractTags Number t sentence topK).2 →
       Frequency (idf t) w = Some freq →
       {| text := w; weight := (freq * 1.0)%float |}
       ∈ (CNExtractTags Number t sentence (-1)).1)
  ∧ (Z.of_nat (length (Cut (seg t) sentence true)) < 2 ^ 63 →
     ∀ w, w ∈ trimmed t sentence → cn_keeps Number t w = true →
          cn_freqMap (cn_tokens Number t sentence) !! w = Some 1.0%float).
Proof.
  destruct (cn_tokens_inv Number t sentence) as (_ & _ & Hv).
  split; [exact Hv|].
  rewrite !CNExtractTags_ranked. simpl.
  split; [|split; [|split]].
  - apply Forall_forall. intros s Hin%elem_of_top.
    apply elem_of_cn_ranked in Hin as (v & freq & Hl & Hf & Hw).
    apply Hv in Hl as ->. eauto.
  - apply cn_freqMap_lookup.
  - intros w freq Hin Hf. rewrite top_negative by lia.
    apply elem_of_cn_ranked. simpl. exists 1.0%float, freq.
    rewrite cn_freqMap_lookup, bool_decide_eq_true_2 by done. done.
  - intros Hb w Hin Hk.
    rewrite cn_freqMap_lookup, bool_decide_eq_true_2; [done|].
    rewrite cn_tokens_bounded by done.
    apply list_elem_of_In, filter_In. split; [|done].
    by apply list_elem_of_In.
Qed.

(** ** The claims about numeric tokens and the returned words *)

Lemma cn_keeps_spec Number t w :
  cn_keeps Number t w = true
  ↔ survives t w = true ∧ isDigit Number w = false.
Proof. unfold cn_keeps. by rewrite andb_true_iff, negb_true_iff. Qed.

(** C3. A sentence delivers fewer than 2^63 tokens, so the counter of
    numeric tokens never wraps around. Then every numeric token, the very
    first one included, is skipped: the step of the loop on a numeric
    token leaves the frequency map and the words as they were; no key of
    the final frequency map is numeric, and neither is the text of a
    returned segment nor a returned word. In particular no numeric token
    is accumulated once a numeric token has been seen. *)
Theorem CNExtractTags_numeric_skipped Number t sentence topK :
  Z.of_nat (length (Cut (seg t) sentence true)) < 2 ^ 63 →
  (∀ pre w post,
     Cut (seg t) sentence true = pre ++ w :: post →
     isDigit Number (Go.TrimSpace w) = true →
     let before := foldl (cn_token Number t) cn_init pre in
     cn_freqMap (cn_token Number t before w) = cn_freqMap before
     ∧ cn_words (cn_token Number t before w) = cn_words before)
  ∧ (∀ k, isDigit Number k = true →
          cn_freqMap (cn_tokens Number t sentence) !! k = None)
  ∧ Forall (λ s, isDigit Number (text s) = false)
      (CNExtractTags Number t sentence topK).1
  ∧ Forall (λ w, isDigit Number w = false)
      (CNExtractTags Number t sentence topK).2.
Proof.
  intros Hb.
  assert (∀ w, w ∈ cn_words (cn_tokens Number t sentence) →
               isDigit Number w = false) as Hwords.
  { intros w. rewrite cn_tokens_bounded by done.
    rewrite list_elem_of_In, filter_In, cn_keeps_spec. tauto. }
  assert (∀ k, isDigit Number k = true →
               cn_freqMap (cn_tokens Number t sentence) !! k = None) as Hkeys.
  { intros k Hk. destruct (cn_tokens_inv Number t sentence) as (_ & Hd & _).
    apply not_elem_of_dom. rewrite Hd. unfold string_set.
    rewrite elem_of_list_to_set. intros Hin%Hwords. congruence. }
  split; [|split; [done|split]].
  - intros pre w post Hcut Hdig before.
    assert (0 ≤ cn_numCount before < 2 ^ 63 - 1) as Hn.
    { destruct (cn_foldl_bounded Number t pre cn_init) as (_ & _ & Hc);
        simpl; [lia| |].
      - rewrite Hcut, length_app in Hb. lia.
      - fold before in Hc. simpl in Hc.
        rewrite Hcut, length_app in Hb. simpl in Hb. lia. }
    rewrite cn_token_bounded by done.
    unfold cn_keeps. rewrite Hdig, andb_false_r. done.
  - rewrite CNExtractTags_ranked. simpl.
    apply Forall_forall. intros s Hin%elem_of_top.
    apply elem_of_cn_ranked in Hin as (v & _ & Hv & _).
    destruct (isDigit Number (text s)) eqn:E; [|done].
    apply Hkeys in E. congruence.
  - apply Forall_forall. exact Hwords.
Qed.

(** C9. The words [CNExtractTags] returns are the occurrences of the
    surviving tokens that are not numeric, one entry per occurrence, in
    the order in which [Cut] delivers them; the texts of the returned
    segments are pairwise distinct. The words do contain duplicates for
    some sentences. *)
Theorem CNExtractTags_words Number t sentence topK :
  Z.of_nat (length (Cut (seg t) sentence true)) < 2 ^ 63 →
  (CNExtractTags Number t sentence topK).2
  = List.filter (cn_keeps Number t) (trimmed t sentence)
  ∧ NoDup (text <$> (CNExtractTags Number t sentence topK).1)
  ∧ ∃ t' sentence', ¬ NoDup (CNExtractTags Number t' sentence' topK).2.
Proof.
  intros Hb. rewrite CNExtractTags_ranked. simpl. split; [|split].
  - by apply cn_tokens_bounded.
  - apply top_NoDup, cn_ranked_NoDup.
  - exists bare_extracter, "ab ab"%string.
    assert (cn_words (cn_tokens Number bare_extracter "ab ab")
            = ["ab"; "ab"]%string) as -> by (vm_compute; reflexivity).
    intros H. apply NoDup_cons in H as [H _]. apply H. left.
Qed.

(** ** The claims at concrete sentences *)

Lemma ExtractTags_length_witness :
  (length (ExtractTags fox_extracter
             "the quick brown fox the quick brown fox" 2) ≤ 2)%nat
  ∧ length (ExtractTags fox_extracter
              "the quick brown fox the quick brown fox" (-1))
    = length (remove_dups (surviving fox_extracter
                             "the quick brown fox the quick brown fox")).
Proof.
  split.
  - apply (proj1 (ExtractTags_length fox_extracter
                    "the quick brown fox the quick brown fox" 2)).
    lia.
  - apply (proj2 (ExtractTags_length fox_extracter
                    "the quick brown fox the quick brown fox" (-1))).
    lia.
Defined.

Lemma ExtractTags_all_filtered_witness :
  ExtractTags fox_stop_extracter "the a  b" 5 = []
  ∧ ExtractTags fox_stop_extracter "" (-1) = [].
Proof.
  split.
  - apply (ExtractTags_all_filtered fox_stop_extracter "the a  b" 5).
    intros w Hw. apply list_elem_of_In in Hw. simpl in Hw.
    destruct Hw as [<-|[<-|[<-|[<-|[]]]]]; vm_compute; auto.
  - apply (ExtractTags_all_filtered fox_stop_extracter "" (-1)).
    intros w Hw. apply list_elem_of_In in Hw. simpl in Hw.
    destruct Hw as [<-|[]]; vm_compute; auto.
Defined.


Lemma CNExtractTags_presence_weight_witness :
  cn_freqMap (cn_tokens no_Number fox_extracter "quick quick brown quick")
  !! "quick"%string = Some 1.0%float
  ∧ {| text := "quick"; weight := (2 * 1.0)%float |}
    ∈ (CNExtractTags no_Number fox_extracter "quick quick brown quick" (-1)).1.
Proof.
  destruct (CNExtractTags_presence_weight no_Number fox_extracter
              "quick quick brown quick" (-1)) as (_ & _ & _ & H4 & H5).
  split.
  - apply H5.
    + vm_compute. reflexivity.
    + assert (trimmed fox_extracter "quick quick brown quick"
              = ["quick"; "quick"; "brown"; "quick"]%string) as ->
        by (vm_compute; reflexivity).
      left.
    + vm_compute. reflexivity.
  - apply (H4 "quick"%string 2%float).
    + assert ((CNExtractTags no_Number fox_extracter
                 "quick quick brown quick" (-1)).2
              = ["quick"; "quick"; "brown"; "quick"]%string) as ->
        by (vm_compute; reflexivity).
      left.
    + vm_compute. reflexivity.
Defined.

Lemma CNExtractTags_numeric_skipped_witness :
  CNExtractTags no_Number fox_extracter "quick 12 brown 345 quick a 67" (-1)
  = ([ {| text := "quick"; weight := 2 |};
       {| text := "brown"; weight := 1.5 |} ],
     ["quick"; "brown"; "quick"]%string)
  ∧ Forall (λ w, isDigit no_Number w = false)
      (CNExtractTags no_Number fox_extracter
         "quick 12 brown 345 quick a 67" (-1)).2.
Proof.
  split; [vm_compute; reflexivity|].
  apply (CNExtractTags_numeric_skipped no_Number fox_extracter
           "quick 12 brown 345 quick a 67" (-1)).
  vm_compute. reflexivity.
Defined.

Lemma CNExtractTags_words_witness :
  (CNExtractTags no_Number fox_extracter "quick 12 brown 345 quick a 67" 1).2
  = List.filter (cn_keeps no_Number fox_extracter)
      (trimmed fox_extracter "quick 12 brown 345 quick a 67")
  ∧ NoDup (text <$> (CNExtractTags no_Number fox_extracter
                       "quick 12 brown 345 quick a 67" 1).1).
Proof.
  destruct (CNExtractTags_words no_Number fox_extracter
              "quick 12 brown 345 quick a 67" 1) as (H1 & H2 & _).
  - vm_compute. reflexivity.
  - split; [exact H1|exact H2].
Defined.

(** ** The Go runtime at concrete strings *)

Example RuneCount_ascii : Go.RuneCountInString "ab" = 2%nat.
Proof. reflexivity. Qed.

(** U+4E2D U+6587: six bytes, two characters. *)
Example RuneCount_cjk :
  Go.RuneCountInString (Go.bytes [0xE4; 0xB8; 0xAD; 0xE6; 0x96; 0x87]) = 2%nat
  ∧ Go.len (Go.bytes [0xE4; 0xB8; 0xAD; 0xE6; 0x96; 0x87]) = 6%nat
  ∧ Go.range_string (Go.bytes [0xE4; 0xB8; 0xAD; 0xE6; 0x96; 0x87])
    = [(0x4E2D, 3%nat); (0x6587, 3%nat)].
Proof. vm_compute. auto. Qed.

(** Blanks, a tab and a line feed around a token with an inner blank. *)
Example TrimSpace_ascii :
  Go.TrimSpace (Go.bytes [0x20; 0x09; 0x61; 0x62; 0x20; 0x63; 0x64; 0x0A; 0x20])
  = "ab cd"%string.
Proof. vm_compute. reflexivity. Qed.

(** U+3000 (ideographic space) around a one-character token. *)
Example TrimSpace_wide :
  Go.TrimSpace
    (Go.bytes [0xE3; 0x80; 0x80; 0xE4; 0xB8; 0xAD; 0xE3; 0x80; 0x80; 0x20])
  = Go.bytes [0xE4; 0xB8; 0xAD].
Proof. vm_compute. reflexivity. Qed.

Example TrimSpace_all_space : Go.TrimSpace "   " = ""%string.
Proof. vm_compute. reflexivity. Qed.

(** A stray continuation byte and a truncated encoding are runes of
    width 1. *)
Example range_string_invalid :
  Go.range_string (Go.bytes [0x80; 0x41; 0xE4; 0xB8]) =
  [(Go.RuneError, 1%nat); (0x41, 1%nat);
   (Go.RuneError, 1%nat); (Go.RuneError, 1%nat)].
Proof. vm_compute. reflexivity. Qed.

(** A token of one character in three bytes is dropped, a token of two
    characters is kept: the length is counted in characters. *)
Example ExtractTags_counts_characters :
  text <$> ExtractTags
    {| seg := {| Cut := λ _ _, [Go.bytes [0xE4; 0xB8; 0xAD];
                                Go.bytes [0xE4; 0xB8; 0xAD; 0xE6; 0x96; 0x87]] |};
       idf := NewIdf; stopWord := NewStopWord |} "" (-1)
  = [Go.bytes [0xE4; 0xB8; 0xAD; 0xE6; 0x96; 0x87]].
Proof. vm_compute. reflexivity. Qed.

Example isDigit_examples :
  isDigit no_Number "2024" = true ∧ isDigit no_Number "" = false
  ∧ isDigit no_Number "20a4" = false
  ∧ isPureDigitLetters no_Number "a1" = true
  ∧ isPureDigitLetters no_Number "a-1" = false
  ∧ isPureDigitLetters no_Number "12" = false.
Proof. vm_compute. auto 10. Qed.

(** * Further properties of the code *)

(** ** Less and Swap on a slice of segments *)

Lemma Segment_less_irrefl a : Segment_less a a = false.
Proof.
  destruct (Segment_less a a) eqn:E; [|done].
  by rewrite (Segment_less_asym a a E) in E.
Qed.

(** X8. [Less] is irreflexive and asymmetric on every slice, NaN weights
    included: no element is less than itself, and of two elements at
    most one is less than the other. *)
Theorem Less_strict (ss : Segments) i j :
  Less ss i i ≠ Some true
  ∧ ¬ (Less ss i j = Some true ∧ Less ss j i = Some true).
Proof.
  unfold Less. split.
  - destruct (ss !! i) as [a|]; simpl; [|done].
    rewrite Segment_less_irrefl. done.
  - destruct (ss !! i) as [a|], (ss !! j) as [b|]; simpl;
      try (by intros [? ?]).
    intros [[= H1] [= H2]]. by rewrite (Segment_less_asym a b H1) in H2.
Qed.

(** X9. On weights that are numbers [Less] is transitive. *)
Theorem Less_transitive (ss : Segments) i j k a b c :
  ss !! i = Some a → ss !! j = Some b → ss !! k = Some c →
  PrimFloat.is_nan (weight a) = false →
  PrimFloat.is_nan (weight b) = false →
  PrimFloat.is_nan (weight c) = false →
  Less ss i j = Some true → Less ss j k = Some true →
  Less ss i k = Some true.
Proof.
  intros Hi Hj Hk Ha Hb Hc.
  rewrite (Less_lookup ss i j a b), (Less_lookup ss j k b c),
    (Less_lookup ss i k a c) by done.
  rewrite !Segment_less_cmp by done.
  intros [= H1] [= H2]. f_equal.
  destruct (Segment_cmp a b) eqn:E1; try done.
  destruct (Segment_cmp b c) eqn:E2; try done.
  by rewrite (cmp_lt_trans (c:=Segment_cmp) a b c E1 E2).
Qed.

(** X10. On weights that are numbers, two elements of different text are
    always ordered by [Less], one way or the other. *)
Theorem Less_total (ss : Segments) i j a b :
  ss !! i = Some a → ss !! j = Some b →
  PrimFloat.is_nan (weight a) = false →
  PrimFloat.is_nan (weight b) = false →
  text a ≠ text b →
  Less ss i j = Some true ∨ Less ss j i = Some true.
Proof.
  intros Hi Hj Ha Hb Ht.
  rewrite (Less_lookup ss i j a b), (Less_lookup ss j i b a) by done.
  rewrite !Segment_less_cmp by done.
  rewrite (cmp_antisym (c:=Segment_cmp) a b).
  destruct (Segment_cmp a b) eqn:E; simpl; auto.
  by apply Segment_cmp_Eq_text in E.
Qed.

Lemma list_delete_insert_same {A} (l : list A) i x :
  delete i (<[i:=x]> l) = delete i l.
Proof.
  revert i. induction l as [|y l IH]; intros [|i]; simpl; try done.
  f_equal. apply IH.
Qed.

Lemma Swap_lookup (ss ss' : Segments) i j :
  Swap ss i j = Some ss' →
  ss' !! i = ss !! j ∧ ss' !! j = ss !! i
  ∧ ∀ k, k ≠ i → k ≠ j → ss' !! k = ss !! k.
Proof.
  unfold Swap. destruct (ss !! i) as [a|] eqn:Hi; simpl; [|done].
  destruct (ss !! j) as [b|] eqn:Hj; simpl; [|done]. intros [= <-].
  pose proof (lookup_lt_Some _ _ _ Hi) as Li.
  pose proof (lookup_lt_Some _ _ _ Hj) as Lj.
  split; [|split].
  - rewrite list_lookup_insert_eq by (by rewrite length_insert). done.
  - destruct (decide (i = j)) as [->|Hne].
    + rewrite list_lookup_insert_eq by (by rewrite length_insert). congruence.
    + rewrite list_lookup_insert_ne by done.
      by rewrite list_lookup_insert_eq.
  - intros k Hki Hkj. by rewrite !list_lookup_insert_ne.
Qed.

(** X11. [Swap] exchanges the two elements and nothing else: the slice keeps
    its length and its elements, and swapping again gives the slice
    back. *)
Theorem Swap_exchanges (ss ss' : Segments) i j :
  Swap ss i j = Some ss' →
  ss' !! i = ss !! j ∧ ss' !! j = ss !! i
  ∧ (∀ k, k ≠ i → k ≠ j → ss' !! k = ss !! k)
  ∧ Len ss' = Len ss
  ∧ ss' ≡ₚ ss
  ∧ Swap ss' i j = Some ss.
Proof.
  intros H. destruct (Swap_lookup ss ss' i j H) as (Hi & Hj & Hk).
  assert (Len ss' = Len ss) as Hlen.
  { unfold Swap in H. destruct (ss !! i), (ss !! j); simpl in H; try done.
    injection H as <-. unfold Len. by rewrite !length_insert. }
  assert (Swap ss' i j = Some ss) as Hback.
  { unfold Swap. rewrite Hi, Hj.
    unfold Swap in H. destruct (ss !! i) as [a|] eqn:Ea; simpl in H; [|done].
    destruct (ss !! j) as [b|] eqn:Eb; simpl in H; [|done]. simpl.
    f_equal. apply list_eq. intros k.
    destruct (decide (k = i)) as [->|Hki].
    - rewrite list_lookup_insert_eq; [done|].
      rewrite length_insert. unfold Len in Hlen. rewrite Hlen.
      by eapply lookup_lt_Some.
    - rewrite list_lookup_insert_ne by done.
      destruct (decide (k = j)) as [->|Hkj].
      + rewrite list_lookup_insert_eq; [done|].
        unfold Len in Hlen. rewrite Hlen. by eapply lookup_lt_Some.
      + rewrite list_lookup_insert_ne by done. by apply Hk. }
  repeat split; try done.
  unfold Swap in H. destruct (ss !! i) as [a|] eqn:Ea; simpl in H; [|done].
  destruct (ss !! j) as [b|] eqn:Eb; simpl in H; [|done].
  injection H as <-.
  destruct (decide (i = j)) as [->|Hne].
  - assert (a = b) as -> by congruence.
    by rewrite list_insert_insert_eq, list_insert_id.
  - assert (<[j:=a]> ss !! i = Some a) as Hia
      by (by rewrite list_lookup_insert_ne).
    pose proof (delete_Permutation _ _ _ Hia) as P1.
    pose proof (delete_Permutation _ _ _ Eb) as P2.
    assert (<[j:=a]> ss !! j = Some a) as Hja.
    { apply list_lookup_insert_eq. by eapply lookup_lt_Some. }
    pose proof (delete_Permutation _ _ _ Hja) as P3.
    assert (<[i:=b]> (<[j:=a]> ss) !! i = Some b) as Hib.
    { apply list_lookup_insert_eq. rewrite length_insert.
      by eapply lookup_lt_Some. }
    pose proof (delete_Permutation _ _ _ Hib) as P4.
    rewrite list_delete_insert_same in P4, P3.
    assert (delete i (<[j:=a]> ss) ≡ₚ delete j ss) as D.
    { apply (Permutation_cons_inv (a:=a)).
      etrans; [symmetry; exact P1|exact P3]. }
    etrans; [exact P4|]. etrans; [|symmetry; exact P2].
    by apply Permutation_cons.
Qed.

(** X12. After a [Swap], [Less] at the swapped indices is [Less] of before
    with the indices exchanged. *)
Theorem Less_after_Swap (ss ss' : Segments) i j :
  Swap ss i j = Some ss' →
  Less ss' i j = Less ss j i ∧ Less ss' j i = Less ss i j.
Proof.
  intros H. destruct (Swap_lookup ss ss' i j H) as (Hi & Hj & _).
  unfold Less. by rewrite Hi, Hj.
Qed.

(** ** The token classification helpers *)

Lemma is_letter_not_Number Number r :
  is_letter r = true → Go.IsNumber Number r = false.
Proof.
  unfold is_letter, Go.IsNumber, Go.MaxLatin1.
  rewrite orb_true_iff, !andb_true_iff, !Z.leb_le. intros H.
  destruct (Z.leb_spec r 255); [|lia].
  replace (r <=? 57) with false by (symmetry; apply Z.leb_gt; lia).
  rewrite andb_false_r. simpl.
  by rewrite !(proj2 (Z.eqb_neq _ _)) by lia.
Qed.

Lemma scan_digit_letters_spec Number rs d l :
  scan_digit_letters Number rs d l
  = forallb (λ p, Go.IsNumber Number p.1 || is_letter p.1) rs
    && (d || existsb (λ p, Go.IsNumber Number p.1) rs)
    && (l || existsb (λ p, is_letter p.1) rs).
Proof.
  revert d l. induction rs as [|[r sz] rs IH]; intros d l; simpl.
  - bool_cases.
  - fold (is_letter r).
    destruct (Go.IsNumber Number r) eqn:En; simpl.
    + destruct (is_letter r) eqn:El.
      { apply (is_letter_not_Number Number) in El. congruence. }
      rewrite IH. bool_cases.
    + destruct (is_letter r); simpl; [|done].
      rewrite IH. bool_cases.
Qed.

Lemma isPureDigitLetters_tests Number str :
  isPureDigitLetters Number str
  = forallb (λ p, Go.IsNumber Number p.1 || is_letter p.1) (Go.range_string str)
    && existsb (λ p, Go.IsNumber Number p.1) (Go.range_string str)
    && existsb (λ p, is_letter p.1) (Go.range_string str).
Proof.
  unfold isPureDigitLetters. destruct (String.eqb_spec str "") as [->|_].
  - done.
  - by rewrite scan_digit_letters_spec.
Qed.

(** X13. [isPureDigitLetters] holds exactly of the strings all of whose
    characters are numbers or ASCII letters, with at least one number and
    at least one letter; in particular it fails on the empty string. *)
Theorem isPureDigitLetters_spec Number str :
  isPureDigitLetters Number str
  = forallb (λ p, Go.IsNumber Number p.1 || is_letter p.1) (Go.range_string str)
    && existsb (λ p, Go.IsNumber Number p.1) (Go.range_string str)
    && existsb (λ p, is_letter p.1) (Go.range_string str)
  ∧ isPureDigitLetters Number "" = false.
Proof. split; [apply isPureDigitLetters_tests|done]. Qed.

Lemma forallb_Number_no_letter Number rs :
  forallb (λ p : Go.rune * nat, Go.IsNumber Number p.1) rs = true →
  existsb (λ p : Go.rune * nat, is_letter p.1) rs = false.
Proof.
  induction rs as [|[r sz] rs IH]; simpl; [done|].
  intros [Hr Hrs]%andb_true_iff. rewrite IH by done.
  destruct (is_letter r) eqn:El; [|done].
  apply (is_letter_not_Number Number) in El. congruence.
Qed.

(** X14. No string is both a digit string for [isDigit] and a
    digit-and-letter string for [isPureDigitLetters]. *)
Theorem isDigit_excludes_isPureDigitLetters Number w :
  isDigit Number w && isPureDigitLetters Number w = false.
Proof.
  rewrite isPureDigitLetters_tests. unfold isDigit.
  destruct (String.eqb w ""); [done|].
  destruct (forallb _ (Go.range_string w)) eqn:E; [|done].
  rewrite (forallb_Number_no_letter Number _ E). simpl.
  by rewrite andb_false_r.
Qed.

(** ** The frequency map of ExtractTags *)

Lemma count_token_lookup t m w0 w :
  count_token t m w0 !! w
  = if survives t (Go.TrimSpace w0) && String.eqb w (Go.TrimSpace w0)
    then bump (m !! w) else m !! w.
Proof.
  destruct (survives t (Go.TrimSpace w0)) eqn:Es; simpl.
  - rewrite count_token_survives by done.
    destruct (String.eqb_spec w (Go.TrimSpace w0)) as [->|Hne].
    + rewrite lookup_insert_eq. by destruct (m !! Go.TrimSpace w0).
    + by rewrite lookup_insert_ne.
  - by rewrite count_token_filtered.
Qed.

Lemma iter_bump_comm n o : Nat.iter n bump (bump o) = bump (Nat.iter n bump o).
Proof. symmetry. apply (Nat.iter_succ_r n bump o). Qed.

Lemma foldl_count_token_lookup t toks m w :
  foldl (count_token t) m toks !! w
  = Nat.iter (occurrences w (List.filter (survives t) (Go.TrimSpace <$> toks)))
      bump (m !! w).
Proof.
  revert m. induction toks as [|w0 toks IH]; intros m; simpl; [done|].
  rewrite IH, count_token_lookup. unfold occurrences.
  destruct (survives t (Go.TrimSpace w0)); simpl; [|done].
  destruct (String.eqb w (Go.TrimSpace w0)); simpl; [|done].
  apply iter_bump_comm.
Qed.

Lemma iter_bump_None n : Nat.iter n bump None = count_after n.
Proof.
  destruct n as [|k]; [done|]. induction k as [|k IH]; [done|].
  change (Nat.iter (S (S k)) bump None)
    with (bump (Nat.iter (S k) bump None)).
  by rewrite IH.
Qed.

Lemma count_tokens_lookup t sentence w :
  count_tokens t sentence !! w
  = count_after (occurrences w (surviving t sentence)).
Proof.
  unfold count_tokens, surviving, trimmed.
  by rewrite foldl_count_token_lookup, lookup_empty, iter_bump_None.
Qed.

(** X2. The first loop of [ExtractTags] counts occurrences: the entry of
    a token in the frequency map is 1.0 for its first surviving
    occurrence plus 1.0 for each further one, and the map has an entry
    exactly for the tokens that survive the filter. *)
Theorem count_tokens_occurrences t sentence w :
  count_tokens t sentence !! w
  = count_after (occurrences w (surviving t sentence))
  ∧ (is_Some (count_tokens t sentence !! w) ↔ w ∈ surviving t sentence).
Proof.
  split; [apply count_tokens_lookup|].
  rewrite <-elem_of_dom, dom_count_tokens. unfold string_set.
  apply elem_of_list_to_set.
Qed.



(** ** The top-K selection of both extractors *)



(** X5. The texts of the segments [ExtractTags] returns are pairwise
    distinct. *)
Theorem ExtractTags_NoDup t sentence topK :
  NoDup (text <$> ExtractTags t sentence topK).
Proof. rewrite ExtractTags_ranked. apply top_NoDup, ranked_NoDup. Qed.


(** ** The collection does not depend on the map order or on the sort *)

(** X6. Ranging over a Go map visits the entries in no fixed order, and
    [sort.Sort] is not stable. When no weight is a NaN neither matters:
    whatever order [entries] the last loop of [ExtractTags] visits the
    normalised frequency map in, and whatever arrangement [ws] of the
    weighted segments the sort leaves that is sorted for the reversed
    [Less], the selection from [ws] is the collection of the model. *)
Theorem ExtractTags_any_order_any_sort t sentence topK entries ws :
  no_NaN (ranked t sentence) = true →
  entries ≡ₚ map_to_list (normalize (count_tokens t sentence)) →
  ws ≡ₚ weigh t <$> entries →
  Sorted (sort.not_before (sort.Reverse Segment_less)) ws →
  top topK ws = ExtractTags t sentence topK.
Proof.
  intros Hn He Hw Hs. rewrite ExtractTags_ranked. f_equal.
  rewrite <-(ranked_order_independent t sentence entries Hn He).
  assert (weigh t <$> entries ≡ₚ ranked t sentence) as Hr.
  { unfold ranked. rewrite sort_reverse_Permutation. by rewrite He. }
  apply Sort_unique; try done.
  - apply (no_NaN_Permutation (ranked t sentence)); done.
  - rewrite Hr. apply ranked_NoDup.
Qed.

Lemma ExtractTags_any_order_any_sort_witness :
  top 1 [ {| text := "quick"; weight := 1 |};
          {| text := "brown"; weight := 0.75 |} ]
  = ExtractTags fox_extracter "quick brown" 1.
Proof.
  apply (ExtractTags_any_order_any_sort fox_extracter "quick brown" 1
           (reverse (map_to_list
                       (normalize (count_tokens fox_extracter "quick brown"))))).
  - vm_compute. reflexivity.
  - apply reverse_Permutation.
  - vm_compute. apply Permutation_swap.
  - repeat constructor.
Defined.

(** ** CNExtractTags against ExtractTags *)

Lemma cn_foldl_words Number t toks st w :
  w ∈ cn_words (foldl (cn_token Number t) st toks) →
  w ∈ cn_words st ∨ w ∈ List.filter (survives t) (Go.TrimSpace <$> toks).
Proof.
  revert st. induction toks as [|w0 toks IH]; intros st; simpl; [auto|].
  intros [H|H]%IH.
  - destruct (cn_token_shape Number t st w0) as [[_ E]|(Hs & _ & E)];
      rewrite E in H; [auto|].
    apply elem_of_app in H as [H| ->%list_elem_of_singleton]; [auto|].
    right. rewrite Hs. left.
  - right. destruct (survives t (Go.TrimSpace w0)); [by right|done].
Qed.

(** X16. [CNExtractTags] returns nothing that [ExtractTags] would not: the
    text of each of its segments is one of the words it returns, and each
    of these words is the text of a segment of the full collection of
    [ExtractTags] for the same sentence. *)
Theorem CNExtractTags_within_ExtractTags Number t sentence topK :
  Forall (λ s, text s ∈ (CNExtractTags Number t sentence topK).2)
    (CNExtractTags Number t sentence topK).1
  ∧ Forall (λ w, w ∈ text <$> ExtractTags t sentence (-1))
      (CNExtractTags Number t sentence topK).2.
Proof.
  rewrite CNExtractTags_ranked. simpl. split; apply Forall_forall.
  - intros s Hin%elem_of_top.
    apply elem_of_cn_ranked in Hin as (v & _ & Hv & _).
    destruct (cn_tokens_inv Number t sentence) as (_ & Hd & _).
    apply (elem_of_list_to_set (C := gset string)).
    unfold string_set in Hd. rewrite <-Hd. apply elem_of_dom. eauto.
  - intros w Hin. unfold cn_tokens in Hin.
    apply cn_foldl_words in Hin as [Hin|Hin]; [by apply elem_of_nil in Hin|].
    rewrite ExtractTags_ranked, top_negative by lia.
    rewrite ranked_distinct_survivors, elem_of_remove_dups. done.
Qed.

(** ** The counter of numeric tokens and a numeric token *)

(** X17. The step of the first loop of [CNExtractTags] on a surviving
    numeric token, for a counter [n] in the range of [int]: the counter
    becomes [n + 1], wrapping from the largest [int] to the smallest; the
    token is skipped when [0 <= n < 2^63 - 1]; it is appended to the
    words and stored in the frequency map when [n] is negative or is the
    largest [int], the cases in which the incremented counter is not
    positive. *)
Theorem cn_token_numeric Number t st w :
  survives t (Go.TrimSpace w) = true →
  isDigit Number (Go.TrimSpace w) = true →
  - 2 ^ 63 ≤ cn_numCount st < 2 ^ 63 →
  cn_numCount (cn_token Number t st w)
  = (if cn_numCount st =? 2 ^ 63 - 1 then - 2 ^ 63 else cn_numCount st + 1)
  ∧ (0 ≤ cn_numCount st < 2 ^ 63 - 1 →
     cn_freqMap (cn_token Number t st w) = cn_freqMap st
     ∧ cn_words (cn_token Number t st w) = cn_words st)
  ∧ (cn_numCount st < 0 ∨ cn_numCount st = 2 ^ 63 - 1 →
     cn_freqMap (cn_token Number t st w)
     = <[Go.TrimSpace w := 1.0%float]> (cn_freqMap st)
     ∧ cn_words (cn_token Number t st w) = cn_words st ++ [Go.TrimSpace w]).
Proof.
  intros [Hl Hs]%andb_true_iff Hd Hn. unfold cn_token.
  apply negb_true_iff in Hl. apply negb_true_iff in Hs.
  rewrite Hl, Hs, Hd. simpl.
  assert (Go.int_wrap (cn_numCount st + 1)
          = if cn_numCount st =? 2 ^ 63 - 1 then - 2 ^ 63
            else cn_numCount st + 1) as ->.
  { destruct (Z.eqb_spec (cn_numCount st) (2 ^ 63 - 1)) as [->|Hne].
    - reflexivity.
    - apply int_wrap_small. lia. }
  destruct (Z.eqb_spec (cn_numCount st) (2 ^ 63 - 1)) as [He|Hne].
  - simpl. split; [done|]. split; [lia|]. intros _.
    by destruct (cn_freqMap st !! Go.TrimSpace w).
  - destruct (Z.gtb_spec (cn_numCount st + 1) 0) as [Hp|Hp]; simpl.
    + split; [done|]. split; [done|]. lia.
    + split; [done|]. split; [lia|]. intros _.
      by destruct (cn_freqMap st !! Go.TrimSpace w).
Qed.

Lemma cn_token_numeric_witness :
  cn_words
    (cn_token no_Number fox_extracter
       {| cn_freqMap := ∅; cn_words := []; cn_numCount := 2 ^ 63 - 1 |} "12")
  = ["12"%string]
  ∧ cn_words
      (cn_token no_Number fox_extracter
         {| cn_freqMap := ∅; cn_words := []; cn_numCount := - 2 ^ 63 |} "345")
    = ["345"%string]
  ∧ cn_words
      (cn_token no_Number fox_extracter
         {| cn_freqMap := ∅; cn_words := []; cn_numCount := 0 |} "12")
    = [].
Proof.
  split; [|split].
  - apply (cn_token_numeric no_Number fox_extracter
             {| cn_freqMap := ∅; cn_words := []; cn_numCount := 2 ^ 63 - 1 |}
             "12"); try (vm_compute; reflexivity).
    + simpl. lia.
    + simpl. lia.
  - apply (cn_token_numeric no_Number fox_extracter
             {| cn_freqMap := ∅; cn_words := []; cn_numCount := - 2 ^ 63 |}
             "345"); try (vm_compute; reflexivity).
    + simpl. lia.
    + simpl. lia.
  - apply (cn_token_numeric no_Number fox_extracter
             {| cn_freqMap := ∅; cn_words := []; cn_numCount := 0 |}
             "12"); try (vm_compute; reflexivity).
    + simpl. lia.
    + simpl. lia.
Defined.

(** ** The load methods together *)

(** X18. What each load method writes. [LoadIdf] writes the field [idf]
    only and [LoadStopWords] the field [stopWord] only, each from a new
    collaborator loaded from the file; [LoadDictionary] writes two
    fields, [seg] from a new segmenter loaded from the file and
    [stopWord], which it resets to a new stop-word set, and keeps [idf].
    Each returns the error of its collaborator. So [LoadIdf] commutes
    with the other two, whereas stop words are kept when loaded after the
    dictionary and lost when loaded before it; after the three loads,
    dictionary first, the extractor holds what the three files give and
    nothing of what it held before. *)
Theorem Load_methods_compose
  (new_Segmenter : Segmenter)
  (Segmenter_LoadDictionary : Segmenter → string → Segmenter * error)
  (Idf_loadDictionary : Idf → string → Idf * error)
  (StopWord_loadDictionary : StopWord → string → StopWord * error)
  (t : TagExtracter) (dictFile idfFile stopFile : string) :
  let LD := LoadDictionary new_Segmenter Segmenter_LoadDictionary in
  let LI := LoadIdf Idf_loadDictionary in
  let LS := LoadStopWords StopWord_loadDictionary in
  LI t idfFile
  = ({| seg := seg t; idf := (Idf_loadDictionary NewIdf idfFile).1;
        stopWord := stopWord t |},
     (Idf_loadDictionary NewIdf idfFile).2)
  ∧ LS t stopFile
    = ({| seg := seg t; idf := idf t;
          stopWord := (StopWord_loadDictionary NewStopWord stopFile).1 |},
       (StopWord_loadDictionary NewStopWord stopFile).2)
  ∧ LD t dictFile
    = ({| seg := (Segmenter_LoadDictionary new_Segmenter dictFile).1;
          idf := idf t; stopWord := NewStopWord |},
       (Segmenter_LoadDictionary new_Segmenter dictFile).2)
  ∧ (LI (LS t stopFile).1 idfFile).1 = (LS (LI t idfFile).1 stopFile).1
  ∧ (LI (LD t dictFile).1 idfFile).1 = (LD (LI t idfFile).1 dictFile).1
  ∧ stopWord (LS (LD t dictFile).1 stopFile).1
    = (StopWord_loadDictionary NewStopWord stopFile).1
  ∧ stopWord (LD (LS t stopFile).1 dictFile).1 = NewStopWord
  ∧ (LS (LI (LD t dictFile).1 idfFile).1 stopFile).1
    = {| seg := (Segmenter_LoadDictionary new_Segmenter dictFile).1;
         idf := (Idf_loadDictionary NewIdf idfFile).1;
         stopWord := (StopWord_loadDictionary NewStopWord stopFile).1 |}.
Proof.
  simpl. unfold LoadIdf, LoadStopWords, LoadDictionary. simpl.
  repeat split.
Qed.

(** ** The lengths of tokens, in characters and in bytes *)

Lemma DecodeRuneInString_width c0 r1 :
  (Go.DecodeRuneInString (String c0 r1)).2 = 1%nat
  ∨ ((Go.DecodeRuneInString (String c0 r1)).2 = 2%nat
     ∧ ∃ c1 r2, r1 = String c1 r2)
  ∨ ((Go.DecodeRuneInString (String c0 r1)).2 = 3%nat
     ∧ ∃ c1 c2 r3, r1 = String c1 (String c2 r3))
  ∨ ((Go.DecodeRuneInString (String c0 r1)).2 = 4%nat
     ∧ ∃ c1 c2 c3 r4, r1 = String c1 (String c2 (String c3 r4))).
Proof.
  unfold Go.DecodeRuneInString.
  destruct (Go.first (Go.byte_val c0)) as [[[sz lo] hi]|]; [|by left].
  destruct (Go.len (String c0 r1) <? sz)%nat; [by left|].
  destruct r1 as [|c1 r2]; [by left|].
  destruct (_ || _); [by left|].
  destruct (sz <=? 2)%nat; [right; left; eauto|].
  destruct r2 as [|c2 r3]; [by left|].
  destruct (negb _); [by left|].
  destruct (sz <=? 3)%nat; [right; right; left; eauto 6|].
  destruct r3 as [|c3 r4]; [by left|].
  destruct (negb _); [by left|].
  right; right; right. eauto 8.
Qed.

Lemma range_string_cons c0 r1 :
  Go.range_string (String c0 r1)
  = Go.DecodeRuneInString (String c0 r1)
    :: match (Go.DecodeRuneInString (String c0 r1)).2, r1 with
       | 2%nat, String _ r2 => Go.range_string r2
       | 3%nat, String _ (String _ r3) => Go.range_string r3
       | 4%nat, String _ (String _ (String _ r4)) => Go.range_string r4
       | _, _ => Go.range_string r1
       end.
Proof. done. Qed.

Lemma range_string_widths_le n s :
  (String.length s ≤ n)%nat →
  sum_list ((Go.range_string s).*2) = String.length s.
Proof.
  revert s. induction n as [|n IH]; intros [|c0 r1] Hn;
    try done; try (simpl in Hn; lia).
  rewrite range_string_cons.
  pose proof (DecodeRuneInString_width c0 r1) as Hw.
  destruct (Go.DecodeRuneInString (String c0 r1)) as [r w].
  simpl in *.
  destruct Hw as [->|[[-> (c1 & r2 & ->)]|[[-> (c1 & c2 & r3 & ->)]
                    |[-> (c1 & c2 & c3 & r4 & ->)]]]];
    simpl in *; rewrite IH by lia; lia.
Qed.

Lemma range_string_widths_positive n s :
  (String.length s ≤ n)%nat → Forall (λ w, 1 ≤ w)%nat (Go.range_string s).*2.
Proof.
  revert s. induction n as [|n IH]; intros [|c0 r1] Hn;
    try (by constructor); try (simpl in Hn; lia).
  rewrite range_string_cons.
  pose proof (DecodeRuneInString_width c0 r1) as Hw.
  destruct (Go.DecodeRuneInString (String c0 r1)) as [r w].
  simpl in *.
  destruct Hw as [->|[[-> (c1 & r2 & ->)]|[[-> (c1 & c2 & r3 & ->)]
                    |[-> (c1 & c2 & c3 & r4 & ->)]]]];
    simpl in *; constructor; try lia; apply IH; lia.
Qed.

Lemma length_le_sum_list (l : list nat) :
  Forall (λ w, 1 ≤ w)%nat l → (length l ≤ sum_list l)%nat.
Proof. induction 1; simpl; lia. Qed.

(** The range loop over a string consumes it exactly: the widths of the
    runes it yields add up to the length of the string in bytes, whatever
    the bytes are; so a string has at most as many characters as bytes. *)
Lemma RuneCountInString_le_len s :
  sum_list ((Go.range_string s).*2) = Go.len s
  ∧ (Go.RuneCountInString s ≤ Go.len s)%nat.
Proof.
  assert (sum_list ((Go.range_string s).*2) = Go.len s) as Hsum
    by (by apply (range_string_widths_le (String.length s))).
  split; [done|]. rewrite <-Hsum. unfold Go.RuneCountInString.
  rewrite <-(length_fmap snd). apply length_le_sum_list.
  by apply (range_string_widths_positive (String.length s)).
Qed.

(** X19. The length filter counts characters, and a character takes at
    least one byte: every text and every word returned by either
    extractor has at least two bytes. *)
Theorem returned_texts_two_bytes Number t sentence topK :
  Forall (λ sg, (2 ≤ Go.len (text sg))%nat) (ExtractTags t sentence topK)
  ∧ Forall (λ sg, (2 ≤ Go.len (text sg))%nat)
      (CNExtractTags Number t sentence topK).1
  ∧ Forall (λ w, (2 ≤ Go.len w)%nat) (CNExtractTags Number t sentence topK).2.
Proof.
  assert (∀ w, survives t w = true → (2 ≤ Go.len w)%nat) as Hsurv.
  { intros w [Hw _]%survives_spec.
    destruct (RuneCountInString_le_len w) as [_ Hle]. lia. }
  destruct (cn_tokens_inv Number t sentence) as (Hwords & Hd & _).
  rewrite ExtractTags_ranked, CNExtractTags_ranked. simpl.
  split; [|split]; apply Forall_forall.
  - intros sg Hin%elem_of_top%elem_of_ranked%elem_of_surviving.
    apply Hsurv. tauto.
  - intros sg Hin%elem_of_top.
    apply elem_of_cn_ranked in Hin as (v & _ & Hv & _).
    apply Hsurv, Hwords. apply (elem_of_list_to_set (C := gset string)).
    unfold string_set in Hd. rewrite <-Hd. apply elem_of_dom. eauto.
  - intros w Hin. by apply Hsurv, Hwords.
Qed.

(** ** CNExtractTags and the set of tokens *)


(** ** More stop words *)

(** X21. Stop words only remove: with the same segmenter, an extractor
    whose stop-word set is larger returns, for a negative [topK], no text
    that the extractor with the smaller set does not return. *)
Theorem ExtractTags_more_stop_words t1 t2 sentence :
  seg t1 = seg t2 →
  stopWordMap (stopWord t1) ⊆ stopWordMap (stopWord t2) →
  Forall (λ w, w ∈ text <$> ExtractTags t1 sentence (-1))
    (text <$> ExtractTags t2 sentence (-1)).
Proof.
  intros Hseg Hsub. apply Forall_forall. intros w.
  rewrite !ExtractTags_ranked, !top_negative by lia.
  rewrite !ranked_distinct_survivors, !elem_of_remove_dups.
  rewrite !elem_of_surviving, !survives_spec. unfold trimmed.
  rewrite Hseg. intros (Hin & Hlen & Hstop). repeat split; try done.
  unfold IsStopWord in *. apply bool_decide_eq_false.
  apply bool_decide_eq_false in Hstop. set_solver.
Qed.


(** ** The further properties at concrete values *)

Lemma Less_transitive_witness :
  Less [ {| text := "ab"; weight := 1 |}; {| text := "cd"; weight := 2 |};
         {| text := "ef"; weight := 2 |} ] 0 2 = Some true.
Proof.
  apply (Less_transitive _ 0 1 2
           {| text := "ab"; weight := 1 |} {| text := "cd"; weight := 2 |}
           {| text := "ef"; weight := 2 |}); vm_compute; reflexivity.
Defined.

Lemma Less_total_witness :
  Less [ {| text := "cd"; weight := 2 |}; {| text := "ab"; weight := 2 |} ]
    0 1 = Some true
  ∨ Less [ {| text := "cd"; weight := 2 |}; {| text := "ab"; weight := 2 |} ]
      1 0 = Some true.
Proof.
  apply (Less_total _ 0 1
           {| text := "cd"; weight := 2 |} {| text := "ab"; weight := 2 |});
    try (vm_compute; reflexivity).
  simpl. discriminate.
Defined.

Lemma Swap_exchanges_witness :
  Swap [ {| text := "cd"; weight := 2 |}; {| text := "ab"; weight := 1 |} ]
    0 1
  = Some [ {| text := "ab"; weight := 1 |}; {| text := "cd"; weight := 2 |} ].
Proof.
  apply (Swap_exchanges
           [ {| text := "ab"; weight := 1 |}; {| text := "cd"; weight := 2 |} ]
           [ {| text := "cd"; weight := 2 |}; {| text := "ab"; weight := 1 |} ]
           0 1).
  reflexivity.
Defined.

Lemma Less_after_Swap_witness :
  Less [ {| text := "cd"; weight := 2 |}; {| text := "ab"; weight := 1 |} ]
    0 1
  = Less [ {| text := "ab"; weight := 1 |}; {| text := "cd"; weight := 2 |} ]
      1 0.
Proof.
  apply (Less_after_Swap
           [ {| text := "ab"; weight := 1 |}; {| text := "cd"; weight := 2 |} ]
           [ {| text := "cd"; weight := 2 |}; {| text := "ab"; weight := 1 |} ]
           0 1).
  reflexivity.
Defined.



Lemma ExtractTags_more_stop_words_witness :
  Forall (λ w, w ∈ text <$> ExtractTags fox_extracter "the quick fox" (-1))
    (text <$> ExtractTags fox_stop_extracter "the quick fox" (-1)).
Proof.
  apply (ExtractTags_more_stop_words fox_extracter fox_stop_extracter
           "the quick fox").
  - reflexivity.
  - simpl. apply empty_subseteq.
Defined.
